(** * Rule 118: TRANSLATE with obsolete CODE PAGE

    A shallow embedding of [src/app/app.py]: the helpers
    ([line_of_offset], [snippet_at], the two comment strippers), the seven
    compiled patterns and [scan_unit], together with the part of Python's
    [re] engine those patterns exercise.

    Text is a list of characters.  A character is a code point of the
    Latin-1 range (one [ascii], 0..255), classified as Python 3 classifies
    the code points U+0000..U+00FF of a [str]: [\s], [\w], [\b] and
    IGNORECASE are the Unicode versions restricted to that range. *)

From Stdlib Require Import Ascii String ZArith NArith Lia Bool Arith.
From Stdlib Require Import Sorted List.
Import ListNotations.

(** ** Characters *)

Module Char.

Definition code (c : ascii) : N := N_of_ascii c.

Definition between (lo hi : N) (c : ascii) : bool :=
  ((lo <=? code c) && (code c <=? hi))%N.

Definition is_code (n : N) (c : ascii) : bool := (code c =? n)%N.

Definition newline : ascii := ascii_of_N 10.
Definition dquote : ascii := ascii_of_N 34.
Definition squote : ascii := ascii_of_N 39.
Definition star : ascii := ascii_of_N 42.
Definition dot : ascii := ascii_of_N 46.
Definition backslash : ascii := ascii_of_N 92.

(** [\s] on a str pattern, which is also what [str.strip()] removes:
    TAB LF VT FF CR, the separators 0x1C..0x1F, SPACE, NEL and NBSP. *)
Definition is_space (c : ascii) : bool :=
  between 9 13 c || between 28 32 c || is_code 133 c || is_code 160 c.

(** [\w] on a str pattern: alphanumeric in the Unicode sense, or [_]. *)
Definition is_word (c : ascii) : bool :=
  between 48 57 c || between 65 90 c || is_code 95 c || between 97 122 c
  || is_code 170 c || between 178 179 c || is_code 181 c || between 185 186 c
  || between 188 190 c || between 192 214 c || between 216 246 c
  || between 248 255 c.

(** Simple lower-casing, as IGNORECASE applies it to one code point. *)
Definition lower (c : ascii) : ascii :=
  if between 65 90 c || between 192 214 c || between 216 222 c
  then ascii_of_N (code c + 32) else c.

(** [.] without DOTALL. *)
Definition not_newline (c : ascii) : bool := negb (is_code 10 c).

(** [[^.]] *)
Definition not_dot (c : ascii) : bool := negb (is_code 46 c).

(** [[0-9a-f]] under IGNORECASE. *)
Definition is_hex (c : ascii) : bool :=
  between 48 57 c || between 97 102 c || between 65 70 c.

Definition eqb_ci (c x : ascii) : bool := Ascii.eqb (lower x) (lower c).

End Char.

Definition text := list ascii.

Definition txt (s : string) : text := list_ascii_of_string s.

(** ** The regular expressions of the source and their matcher *)

Inductive regex : Type :=
| Eps                              (* the empty pattern *)
| Chr (c : ascii)                  (* a literal character *)
| ChrI (c : ascii)                 (* a literal character under (?i) *)
| Star (p : ascii -> bool)         (* p*   greedy *)
| Plus (p : ascii -> bool)         (* p+   greedy *)
| LazyStar (p : ascii -> bool)     (* p*?  lazy *)
| WordB                            (* \b *)
| Bol                              (* ^ under (?m) *)
| Eol                              (* $ under (?m) *)
| Eos                              (* $ without (?m) *)
| Cat (r1 r2 : regex)
| Alt (r1 r2 : regex)
| Ahead (r : regex).               (* (?=r) *)

(** A position in the subject is the character before it, if any, and the
    characters from it on. *)

Definition word_before (prev : option ascii) : bool :=
  match prev with Some c => Char.is_word c | None => false end.

Definition word_after (s : text) : bool :=
  match s with c :: _ => Char.is_word c | [] => false end.

Definition word_boundary (prev : option ascii) (s : text) : bool :=
  xorb (word_before prev) (word_after s).

Definition at_bol (prev : option ascii) : bool :=
  match prev with Some c => Char.is_code 10 c | None => true end.

Definition at_eol (s : text) : bool :=
  match s with c :: _ => Char.is_code 10 c | [] => true end.

Definition at_eos (s : text) : bool :=
  match s with
  | [] => true
  | c :: [] => Char.is_code 10 c
  | _ => false
  end.

Fixpoint advance (prev : option ascii) (w : text) : option ascii :=
  match w with
  | [] => prev
  | c :: w' => advance (Some c) w'
  end.

Definition orelse {R : Type} (a b : option R) : option R :=
  match a with Some _ => a | None => b end.

Section Repeat.
Variable R : Type.
Variable p : ascii -> bool.
Variable k : option ascii -> text -> option R.

(** Longest run first, then one character less at a time. *)
Fixpoint star_greedy (prev : option ascii) (s : text) : option R :=
  match s with
  | c :: s' =>
      if p c then orelse (star_greedy (Some c) s') (k prev s) else k prev s
  | [] => k prev s
  end.

(** Shortest run first, then one character more at a time. *)
Fixpoint star_lazy (prev : option ascii) (s : text) : option R :=
  match k prev s with
  | Some r => Some r
  | None =>
      match s with
      | c :: s' => if p c then star_lazy (Some c) s' else None
      | [] => None
      end
  end.
End Repeat.

Arguments star_greedy {R} p k prev s.
Arguments star_lazy {R} p k prev s.

(** The backtracking matcher, in continuation-passing style: [run r k prev s]
    tries the ways [r] can match at the position in the engine's priority
    order and returns the first for which the continuation succeeds. *)
Fixpoint run (r : regex) {R : Type} (k : option ascii -> text -> option R)
    (prev : option ascii) (s : text) {struct r} : option R :=
  match r with
  | Eps => k prev s
  | Chr c =>
      match s with
      | x :: s' => if Ascii.eqb x c then k (Some x) s' else None
      | [] => None
      end
  | ChrI c =>
      match s with
      | x :: s' => if Char.eqb_ci c x then k (Some x) s' else None
      | [] => None
      end
  | Star p => star_greedy p k prev s
  | Plus p =>
      match s with
      | x :: s' => if p x then star_greedy p k (Some x) s' else None
      | [] => None
      end
  | LazyStar p => star_lazy p k prev s
  | WordB => if word_boundary prev s then k prev s else None
  | Bol => if at_bol prev then k prev s else None
  | Eol => if at_eol s then k prev s else None
  | Eos => if at_eos s then k prev s else None
  | Cat r1 r2 => run r1 (run r2 k) prev s
  | Alt r1 r2 => orelse (run r1 k prev s) (run r2 k prev s)
  | Ahead r1 =>
      match run r1 (fun _ _ => Some tt) prev s with
      | Some _ => k prev s
      | None => None
      end
  end.

(** One match attempt at a position: what is left of the subject after the
    match. *)
Definition match_at (r : regex) (prev : option ascii) (s : text)
  : option text :=
  run r (fun _ rest => Some rest) prev s.

(** [pattern.search(s) is not None] *)
Fixpoint search_from (r : regex) (prev : option ascii) (s : text) : bool :=
  match match_at r prev s with
  | Some _ => true
  | None =>
      match s with
      | [] => false
      | c :: s' => search_from r (Some c) s'
      end
  end.

Definition search (r : regex) (s : text) : bool := search_from r None s.

(** [pattern.finditer(s)], as the spans (start, end).  [skip] counts the
    characters of the last match still to be passed over.  None of the
    patterns of the source matches the empty string; an empty match would be
    reported and the scan moved on by one character. *)
Fixpoint finditer_from (r : regex) (pos skip : nat) (prev : option ascii)
    (s : text) : list (nat * nat) :=
  match skip with
  | S n =>
      match s with
      | [] => []
      | c :: s' => finditer_from r (S pos) n (Some c) s'
      end
  | O =>
      match match_at r prev s with
      | Some rest =>
          let len := length s - length rest in
          (pos, pos + len) ::
            match s with
            | [] => []
            | c :: s' => finditer_from r (S pos) (len - 1) (Some c) s'
            end
      | None =>
          match s with
          | [] => []
          | c :: s' => finditer_from r (S pos) 0 (Some c) s'
          end
      end
  end.

Definition finditer (r : regex) (s : text) : list (nat * nat) :=
  finditer_from r 0 0 None s.

(** [re.sub(pattern, '', s)]: the subject with every match cut out. *)
Fixpoint sub_from (r : regex) (skip : nat) (prev : option ascii) (s : text)
  : text :=
  match s with
  | [] => []
  | c :: s' =>
      match skip with
      | S n => sub_from r n (Some c) s'
      | O =>
          match match_at r prev s with
          | Some rest =>
              match length s - length rest with
              | O => c :: sub_from r 0 (Some c) s'
              | S n => sub_from r n (Some c) s'
              end
          | None => c :: sub_from r 0 (Some c) s'
          end
      end
  end.

Definition sub_empty (r : regex) (s : text) : text := sub_from r 0 None s.

(** A pattern that cannot match the empty string: every way through it
    takes a character. *)
Fixpoint consumes (r : regex) : bool :=
  match r with
  | Chr _ | ChrI _ | Plus _ => true
  | Cat r1 r2 => consumes r1 || consumes r2
  | Alt r1 r2 => consumes r1 && consumes r2
  | _ => false
  end.

(** Pattern builders. *)
Definition pat (rs : list regex) : regex := fold_right Cat Eps rs.

Definition liti (w : string) : regex := pat (map ChrI (txt w)).

(** ** Python slicing and string helpers *)

(** An index of a slice, as [s[lo:hi]] resolves it: a negative index counts
    from the end, and both ends are clamped to the string. *)
Definition clamp_index (len i : Z) : Z :=
  if (i <? 0)%Z then Z.max 0 (i + len) else Z.min i len.

Definition slice (t : text) (lo hi : Z) : text :=
  let n := Z.of_nat (length t) in
  let a := clamp_index n lo in
  let b := clamp_index n hi in
  firstn (Z.to_nat (b - a)) (skipn (Z.to_nat a) t).

(** [s.count(c)] for a one-character needle. *)
Definition count_char (c : ascii) (t : text) : nat :=
  length (filter (Ascii.eqb c) t).

(** [s.replace] of every newline by a backslash and the letter n *)
Definition escape_newlines (t : text) : text :=
  flat_map (fun c => if Ascii.eqb c Char.newline
                     then [Char.backslash; "n"%char] else [c]) t.

Fixpoint lstrip (t : text) : text :=
  match t with
  | c :: t' => if Char.is_space c then lstrip t' else t
  | [] => []
  end.

(** [s.strip()] *)
Definition strip (t : text) : text := rev (lstrip (rev (lstrip t))).

Definition is_empty (t : text) : bool :=
  match t with [] => true | _ :: _ => false end.

(** ** Models *)

Module Unit.
Record t : Type := mk {
  pgm_name : string;
  inc_name : string;
  type : string;
  name : option string;
  start_line : option Z;
  end_line : option Z;
  code : option text
}.
End Unit.

Module Finding.
Record t : Type := mk {
  pgm_name : string;
  inc_name : string;
  type : string;
  name : option string;
  start_line : option Z;
  end_line : option Z;
  issue_type : string;
  severity : string;
  line : Z;
  message : string;
  suggestion : string;
  snippet : text
}.
End Finding.

(** ** Helpers *)

(** One more than the newlines of [text[0:off]]. *)
Definition line_of_offset (t : text) (off : Z) : Z :=
  Z.of_nat (count_char Char.newline (slice t 0 off)) + 1.

Definition snippet_at (t : text) (start end_ : Z) : text :=
  let s := Z.max 0 (start - 60) in
  let e := Z.min (Z.of_nat (length t)) (end_ + 60) in
  escape_newlines (slice t s e).

(** A double quote, then [.*?(?=\n|$)]; no flags. *)
Definition INLINE_RE : regex :=
  pat [Chr Char.dquote; LazyStar Char.not_newline;
       Ahead (Alt (Chr Char.newline) Eos)].

(** [(?m)^\s*\*.*$] *)
Definition STAR_RE : regex :=
  pat [Bol; Star Char.is_space; Chr Char.star; Star Char.not_newline; Eol].

Definition strip_inline_quotes (s : text) : text := sub_empty INLINE_RE s.

Definition strip_full_line_star_comments (s : text) : text :=
  sub_empty STAR_RE s.

Definition cleaned_stmt (stmt : text) : text :=
  let no_stars := strip_full_line_star_comments stmt in
  let no_inline := strip_inline_quotes no_stars in
  no_inline.

Definition is_entirely_commented (stmt : text) : bool :=
  is_empty (strip (cleaned_stmt stmt)).

(** ** Detection *)

(** [(?is)\bTRANSLATE\b[^.]*\.] *)
Definition STMT_RE : regex :=
  pat [WordB; liti "TRANSLATE"; WordB; Star Char.not_dot; ChrI Char.dot].

(** [(?i)\bCODE\s+PAGE\b] *)
Definition HAS_CODEPAGE : regex :=
  pat [WordB; liti "CODE"; Plus Char.is_space; liti "PAGE"; WordB].

(** [(?i)\bCODE\s+PAGE\s+(CP1|CP2)\b] *)
Definition LEGACY_CP : regex :=
  pat [WordB; liti "CODE"; Plus Char.is_space; liti "PAGE";
       Plus Char.is_space; Alt (liti "CP1") (liti "CP2"); WordB].

(** [(?i)\bFROM\s+CODE\s+PAGE\b] *)
Definition FROM_CP : regex :=
  pat [WordB; liti "FROM"; Plus Char.is_space; liti "CODE";
       Plus Char.is_space; liti "PAGE"; WordB].

(** [(?i)\bTO\s+CODE\s+PAGE\b] *)
Definition TO_CP : regex :=
  pat [WordB; liti "TO"; Plus Char.is_space; liti "CODE";
       Plus Char.is_space; liti "PAGE"; WordB].

(** [(?i)\bx'[0-9a-f]+'\b] *)
Definition HEX_LITERAL : regex :=
  pat [WordB; liti "x'"; Plus Char.is_hex; ChrI Char.squote; WordB].

(** [(?i)\b(lx_|xstr|xstring)\w*\b] *)
Definition LIKELY_XVAR : regex :=
  pat [WordB; Alt (liti "lx_") (Alt (liti "xstr") (liti "xstring"));
       Star Char.is_word; WordB].

Definition msg_obsolete : string :=
  "TRANSLATE uses CODE PAGE option (legacy/obsolete). Prefer FROM/TO CODE PAGE or CL_ABAP_CONV_CODEPAGE.".

Definition nl : string := String Char.newline EmptyString.

Definition sug_obsolete : string :=
  ("Example (modern):" ++ nl
   ++ "  TRANSLATE lv_text FROM CODE PAGE 'UTF-8' TO CODE PAGE 'UTF-16'." ++ nl
   ++ "Or use CL_ABAP_CONV_CODEPAGE for robust conversions.")%string.

Definition msg_legacy : string :=
  "TRANSLATE references CP1/CP2 (legacy code pages).".

Definition sug_legacy : string :=
  "Use explicit Unicode pages (e.g., 'UTF-8', 'UTF-16') or CL_ABAP_CONV_CODEPAGE.".

Definition msg_missing : string :=
  "TRANSLATE with CODE PAGE should specify FROM CODE PAGE and/or TO CODE PAGE explicitly.".

Definition sug_missing : string :=
  "Add FROM CODE PAGE <src> and/or TO CODE PAGE <dst> (e.g., 'UTF-8').".

Definition msg_risk : string :=
  "TRANSLATE appears to operate on non-character/hex-like data. Ensure character-type variables for code page conversions.".

Definition sug_risk : string :=
  "Use character-type variables (STRING/CHAR) or convert via CL_ABAP_CONV_CODEPAGE.".

(** The dict appended to [findings] by each of the four checks. *)
Definition finding (unit : Unit.t) (src : text) (start end_ : nat)
    (issue severity message suggestion : string) : Finding.t :=
  {| Finding.pgm_name := Unit.pgm_name unit;
     Finding.inc_name := Unit.inc_name unit;
     Finding.type := Unit.type unit;
     Finding.name := Unit.name unit;
     Finding.start_line := Unit.start_line unit;
     Finding.end_line := Unit.end_line unit;
     Finding.issue_type := issue;
     Finding.severity := severity;
     Finding.line := line_of_offset src (Z.of_nat start);
     Finding.message := message;
     Finding.suggestion := suggestion;
     Finding.snippet := snippet_at src (Z.of_nat start) (Z.of_nat end_) |}.

Definition when (b : bool) (f : Finding.t) : list Finding.t :=
  if b then [f] else [].

(** [m.group(0)] of a match with span (start, end) *)
Definition group0 (src : text) (m : nat * nat) : text :=
  firstn (snd m - fst m) (skipn (fst m) src).

(** The four checks on a comment-free statement, in the order of the code. *)
Definition classify (unit : Unit.t) (src : text) (start end_ : nat)
    (stmt : text) : list Finding.t :=
  let has_codepage := search HAS_CODEPAGE stmt in
  let legacy_cp := search LEGACY_CP stmt in
  let has_from := search FROM_CP stmt in
  let has_to := search TO_CP stmt in
  let non_char_risk := search HEX_LITERAL stmt || search LIKELY_XVAR stmt in
  when has_codepage
    (finding unit src start end_ "TranslateObsoleteCodepage" "warning"
       msg_obsolete sug_obsolete)
  ++ when legacy_cp
    (finding unit src start end_ "TranslateLegacyCp1Cp2" "warning"
       msg_legacy sug_legacy)
  ++ when (has_codepage && negb (has_from || has_to))
    (finding unit src start end_ "TranslateMissingFromTo" "info"
       msg_missing sug_missing)
  ++ when non_char_risk
    (finding unit src start end_ "TranslateNonCharacterRisk" "info"
       msg_risk sug_risk).

(** The body of the loop of [scan_unit]: what one match appends. *)
Definition scan_match (unit : Unit.t) (src : text) (m : nat * nat)
  : list Finding.t :=
  let stmt_raw := group0 src m in
  let '(start, end_) := m in
  if is_entirely_commented stmt_raw then []
  else classify unit src start end_ (cleaned_stmt stmt_raw).

(** [unit.code], or the empty string when it is None or empty *)
Definition source_of (unit : Unit.t) : text :=
  match Unit.code unit with Some c => c | None => [] end.

Definition statements (src : text) : list (nat * nat) := finditer STMT_RE src.

Record ScanResult : Type := {
  unit_fields : Unit.t;
  rule118_findings : list Finding.t
}.

Definition scan_unit (unit : Unit.t) : ScanResult :=
  let src := source_of unit in
  {| unit_fields := unit;
     rule118_findings := flat_map (scan_match unit src) (statements src) |}.

(** ** What a pattern can match

    [den r prev s prev' s'] holds when [r] can match, from the position
    [(prev, s)], up to the position [(prev', s')], whatever the priorities.
    The matcher succeeds exactly when some such match lets the continuation
    succeed. *)

Fixpoint den (r : regex) (prev : option ascii) (s : text)
    (prev' : option ascii) (s' : text) : Prop :=
  match r with
  | Eps => prev' = prev /\ s' = s
  | Chr c => s = c :: s' /\ prev' = Some c
  | ChrI c =>
      exists x, s = x :: s' /\ Char.eqb_ci c x = true /\ prev' = Some x
  | Star p | LazyStar p =>
      exists w, s = w ++ s' /\ forallb p w = true /\ prev' = advance prev w
  | Plus p =>
      exists x w, s = x :: w ++ s' /\ p x = true /\ forallb p w = true
                  /\ prev' = advance (Some x) w
  | WordB => word_boundary prev s = true /\ prev' = prev /\ s' = s
  | Bol => at_bol prev = true /\ prev' = prev /\ s' = s
  | Eol => at_eol s = true /\ prev' = prev /\ s' = s
  | Eos => at_eos s = true /\ prev' = prev /\ s' = s
  | Cat r1 r2 =>
      exists pm sm, den r1 prev s pm sm /\ den r2 pm sm prev' s'
  | Alt r1 r2 => den r1 prev s prev' s' \/ den r2 prev s prev' s'
  | Ahead r1 => (exists p1 s1, den r1 prev s p1 s1) /\ prev' = prev /\ s' = s
  end.

(** ** The words of the specification

    The phrases the specification speaks of, stated on the text itself and
    independently of the matcher. *)

(** [kw] is the word [w], letter case apart. *)
Definition same_word (w : string) (kw : text) : Prop :=
  map Char.lower kw = map Char.lower (txt w).

(** A non-empty run of whitespace. *)
Definition blank (g : text) : Prop :=
  g <> [] /\ forallb Char.is_space g = true.

(** [occ] is an occurrence of the phrase made of the word [w] and then the
    words [ws], consecutive words being separated by whitespace. *)
Fixpoint phrase_text (w : string) (ws : list string) (occ : text) : Prop :=
  match ws with
  | [] => same_word w occ
  | w' :: ws' =>
      exists kw g occ',
        occ = kw ++ g ++ occ' /\ same_word w kw /\ blank g
        /\ phrase_text w' ws' occ'
  end.

(** The statement contains the phrase, between two word boundaries. *)
Definition contains_phrase (w : string) (ws : list string) (stmt : text)
  : Prop :=
  exists pre occ post,
    stmt = pre ++ occ ++ post
    /\ phrase_text w ws occ
    /\ word_boundary (advance None pre) (occ ++ post) = true
    /\ word_boundary (advance None (pre ++ occ)) post = true.

(** The pattern of a phrase: [\b], the words separated by [\s+], [\b]. *)
Fixpoint phrase_body (w : string) (ws : list string) : list regex :=
  match ws with
  | [] => [liti w]
  | w' :: ws' => liti w :: Plus Char.is_space :: phrase_body w' ws'
  end.

Definition phrase_re (w : string) (ws : list string) : regex :=
  pat (WordB :: phrase_body w ws ++ [WordB]).

(** The statement contains a whole-word identifier that begins, letter case
    apart, with one of the prefixes [lx_], [xstr], [xstring]. *)
Definition contains_xvar (stmt : text) : Prop :=
  exists pre ident post,
    stmt = pre ++ ident ++ post
    /\ forallb Char.is_word ident = true
    /\ word_before (advance None pre) = false
    /\ word_after post = false
    /\ exists pfx p tail,
        In pfx ["lx_"; "xstr"; "xstring"]%string
        /\ ident = p ++ tail /\ same_word pfx p.

(** A hex literal token: the letter x, a quote, hex digits, a quote. *)
Definition hex_literal (tok : text) : Prop :=
  exists x ds,
    tok = x :: Char.squote :: ds ++ [Char.squote]
    /\ Char.lower x = "x"%char
    /\ ds <> [] /\ forallb Char.is_hex ds = true.

Definition contains_hex_literal (stmt : text) : Prop :=
  exists pre tok post, stmt = pre ++ tok ++ post /\ hex_literal tok.

(** The findings carry the issue type and the severity of a check. *)
Definition reports (fs : list Finding.t) (issue severity : string) : Prop :=
  exists f, In f fs /\ Finding.issue_type f = issue
            /\ Finding.severity f = severity.

(** What a scan reports, in order: issue type and severity. *)
Definition kinds (fs : list Finding.t) : list (string * string) :=
  map (fun f => (Finding.issue_type f, Finding.severity f)) fs.

(** The statement text the checks of a match are run on. *)
Definition stmt_of (src : text) (m : nat * nat) : text :=
  cleaned_stmt (group0 src m).

Definition OBSOLETE : string * string :=
  ("TranslateObsoleteCodepage", "warning")%string.
Definition LEGACY : string * string :=
  ("TranslateLegacyCp1Cp2", "warning")%string.
Definition MISSING : string * string :=
  ("TranslateMissingFromTo", "info")%string.
Definition RISK : string * string :=
  ("TranslateNonCharacterRisk", "info")%string.

(** The units of the scenarios of the specification and of the examples. *)
Definition unit_of (body : text) : Unit.t :=
  {| Unit.pgm_name := "ZPROG"; Unit.inc_name := "ZINC"; Unit.type := "FORM";
     Unit.name := Some "main"%string; Unit.start_line := Some 1%Z;
     Unit.end_line := Some 2%Z; Unit.code := Some body |}.

Definition body_from_to : text :=
  txt "TRANSLATE lv_x FROM CODE PAGE 'UTF-8' TO CODE PAGE 'UTF-16'.".

Definition body_cp1 : text :=
  txt "* comment" ++ [Char.newline] ++ txt "TRANSLATE lv_x CODE PAGE CP1.".

Definition body_plain_codepage : text :=
  txt "TRANSLATE lv_x CODE PAGE 'UTF-8'.".

Definition body_hex : text := txt "TRANSLATE lv_a USING X'1A2B'.".

Definition body_xvar : text := txt "TRANSLATE lx_buf TO UPPER CASE.".

Definition body_star_after_blank_line : text :=
  txt "TRANSLATE a" ++ [Char.newline; Char.newline] ++ txt "* c"
  ++ [Char.newline] ++ txt "TO b.".

Definition body_commented_line : text := txt "* TRANSLATE x CODE PAGE CP1.".


(** [t[a:b]] for offsets of the text, 0 <= a <= b <= len(t). *)
Definition substring (t : text) (a b : nat) : text :=
  firstn (b - a) (skipn a t).

(** The keyword TRANSLATE occurs as a whole word at offset [a] of [t]: [kw]
    is the occurrence and [after] the text that follows it. *)
Definition keyword_at (t : text) (a : nat) (kw after : text) : Prop :=
  exists pre,
    t = pre ++ kw ++ after
    /\ length pre = a
    /\ same_word "TRANSLATE" kw
    /\ word_before (advance None pre) = false
    /\ word_after after = false.

(** The span [m] runs from a whole-word occurrence of the keyword through
    the first dot after it. *)
Definition statement_span (t : text) (m : nat * nat) : Prop :=
  exists kw mid post,
    keyword_at t (fst m) kw (mid ++ Char.dot :: post)
    /\ forallb Char.not_dot mid = true
    /\ snd m = fst m + length kw + length mid + 1.

(** Two spans in the order of discovery: the second starts after the first
    starts, and not before the first ends. *)
Definition span_before (m1 m2 : nat * nat) : Prop :=
  fst m1 < fst m2 /\ snd m1 <= fst m2.

(** ** The endpoint *)

(** The truth value of a list: it is not empty. *)
Definition truthy {A : Type} (l : list A) : bool :=
  match l with [] => false | _ :: _ => true end.

(** One round of the loop of [scan_rule]: the result of the unit is appended
    when its findings are not empty. *)
Definition scan_rule_step (results : list ScanResult) (u : Unit.t)
  : list ScanResult :=
  let res := scan_unit u in
  if truthy (rule118_findings res) then results ++ [res] else results.

Definition scan_rule (units : list Unit.t) : list ScanResult :=
  fold_left scan_rule_step units [].

(** ** Scanners to compare the comment passes with *)

(** What is left of a text from the end of its first line on. *)
Fixpoint drop_line (s : text) : text :=
  match s with
  | [] => []
  | c :: s' => if Ascii.eqb c Char.newline then s else drop_line s'
  end.

(** A one-pass scanner for inline comments: on each line, the text from the
    first double quote to the end of the line is left out. *)
Fixpoint cut_quotes (in_comment : bool) (s : text) : text :=
  match s with
  | [] => []
  | c :: s' =>
      if Ascii.eqb c Char.newline then c :: cut_quotes false s'
      else if in_comment then cut_quotes true s'
      else if Ascii.eqb c Char.dquote then cut_quotes true s'
      else c :: cut_quotes false s'
  end.

Definition starts_with_star (s : text) : bool :=
  match s with c :: _ => Ascii.eqb c Char.star | [] => false end.

(** The states of a one-pass scanner for full-line star comments: in code,
    at the start of a line or not; in the whitespace that leads to the star
    of a comment; in the comment, up to the end of its line. *)
Inductive star_state : Type :=
| Code (bol : bool)
| Blank
| Comment.

(** At the start of a line, when the first character that is not whitespace
    from there on is a star, everything up to the end of the star's line is
    left out: the whitespace, line breaks included, the star and the rest of
    that line. *)
Fixpoint cut_stars (st : star_state) (s : text) : text :=
  match s with
  | [] => []
  | c :: s' =>
      match st with
      | Comment =>
          if Ascii.eqb c Char.newline then c :: cut_stars (Code true) s'
          else cut_stars Comment s'
      | Blank =>
          if Ascii.eqb c Char.star then cut_stars Comment s'
          else cut_stars Blank s'
      | Code bol =>
          if bol && starts_with_star (lstrip s)
          then if Ascii.eqb c Char.star then cut_stars Comment s'
               else cut_stars Blank s'
          else c :: cut_stars (Code (Ascii.eqb c Char.newline)) s'
      end
  end.

(** [t] is [s] with some elements left out, the others in order. *)
Inductive subseq {A : Type} : list A -> list A -> Prop :=
| subseq_nil : subseq [] []
| subseq_drop : forall c t s, subseq t s -> subseq t (c :: s)
| subseq_keep : forall c t s, subseq t s -> subseq (c :: t) (c :: s).

(** The four kinds of finding with their fixed texts: issue type, severity,
    message and suggestion. *)
Definition catalogue : list (string * string * string * string) :=
  [("TranslateObsoleteCodepage"%string, "warning"%string,
    msg_obsolete, sug_obsolete);
   ("TranslateLegacyCp1Cp2"%string, "warning"%string, msg_legacy, sug_legacy);
   ("TranslateMissingFromTo"%string, "info"%string, msg_missing, sug_missing);
   ("TranslateNonCharacterRisk"%string, "info"%string, msg_risk, sug_risk)].

(** What a finding says apart from the identity of its unit. *)
Definition content (f : Finding.t)
  : string * string * Z * string * string * text :=
  (Finding.issue_type f, Finding.severity f, Finding.line f,
   Finding.message f, Finding.suggestion f, Finding.snippet f).

(** A hex literal that [HEX_LITERAL] can match: it starts a word and a word
    character follows its closing quote. *)
Definition contains_glued_hex_literal (stmt : text) : Prop :=
  exists pre tok post,
    stmt = pre ++ tok ++ post
    /\ hex_literal tok
    /\ word_before (advance None pre) = false
    /\ word_after post = true.


(** The filter of [scan_rule]: the results with findings. *)
Definition has_findings (res : ScanResult) : bool :=
  truthy (rule118_findings res).
Section RepeatFacts.
Variable R : Type.
Variable p : ascii -> bool.
Variable k : option ascii -> text -> option R.

Lemma star_greedy_sound : forall s prev v,
    star_greedy p k prev s = Some v ->
    exists w s', s = w ++ s' /\ forallb p w = true
                 /\ k (advance prev w) s' = Some v.
Proof.
  induction s as [|c s IH]; intros prev v H; simpl in H.
  - exists [], []; auto.
  - destruct (p c) eqn:Hc.
    + destruct (star_greedy p k (Some c) s) as [v'|] eqn:Hs; simpl in H.
      * inversion H; subst v'.
        destruct (IH _ _ Hs) as (w & s' & -> & Hw & Hk).
        exists (c :: w), s'; simpl; rewrite Hc; auto.
      * exists [], (c :: s); auto.
    + exists [], (c :: s); auto.
Qed.

Lemma star_greedy_complete : forall w s' prev v,
    forallb p w = true -> k (advance prev w) s' = Some v ->
    exists v', star_greedy p k prev (w ++ s') = Some v'.
Proof.
  induction w as [|c w IH]; intros s' prev v Hw Hk; simpl in *.
  - destruct s' as [|c s']; simpl; [eauto|].
    destruct (p c); [|eauto].
    destruct (star_greedy p k (Some c) s'); simpl; eauto.
  - apply andb_prop in Hw as [Hc Hw]; rewrite Hc.
    destruct (IH _ _ _ Hw Hk) as [v' ->]; simpl; eauto.
Qed.

Lemma star_lazy_sound : forall s prev v,
    star_lazy p k prev s = Some v ->
    exists w s', s = w ++ s' /\ forallb p w = true
                 /\ k (advance prev w) s' = Some v.
Proof.
  induction s as [|c s IH]; intros prev v H; simpl in H.
  - destruct (k prev []) eqn:Hk; [|discriminate].
    exists [], []; inversion H; subst; auto.
  - destruct (k prev (c :: s)) eqn:Hk.
    + exists [], (c :: s); inversion H; subst; auto.
    + destruct (p c) eqn:Hc; [|discriminate].
      destruct (IH _ _ H) as (w & s' & -> & Hw & Hk').
      exists (c :: w), s'; simpl; rewrite Hc; auto.
Qed.

Lemma star_lazy_complete : forall w s' prev v,
    forallb p w = true -> k (advance prev w) s' = Some v ->
    exists v', star_lazy p k prev (w ++ s') = Some v'.
Proof.
  induction w as [|c w IH]; intros s' prev v Hw Hk; simpl in *.
  - destruct s'; simpl; rewrite Hk; eauto.
  - apply andb_prop in Hw as [Hc Hw].
    destruct (k prev (c :: w ++ s')); [eauto|].
    rewrite Hc. eapply IH; eauto.
Qed.
End RepeatFacts.

Lemma run_sound : forall r R (k : option ascii -> text -> option R) prev s v,
    run r k prev s = Some v ->
    exists p' s', den r prev s p' s' /\ k p' s' = Some v.
Proof.
  induction r as [|c|c|p|p|p| | | | |r1 IH1 r2 IH2|r1 IH1 r2 IH2|r1 IH1];
    intros R k prev s v H; simpl in H.
  - exists prev, s; simpl; auto.
  - destruct s as [|x s]; [discriminate|].
    destruct (Ascii.eqb x c) eqn:E; [|discriminate].
    apply Ascii.eqb_eq in E; subst x. exists (Some c), s; simpl; auto.
  - destruct s as [|x s]; [discriminate|].
    destruct (Char.eqb_ci c x) eqn:E; [|discriminate].
    exists (Some x), s; simpl; eauto.
  - destruct (star_greedy_sound _ _ _ _ _ _ H) as (w & s' & -> & Hw & Hk).
    exists (advance prev w), s'; simpl; eauto.
  - destruct s as [|x s]; [discriminate|].
    destruct (p x) eqn:E; [|discriminate].
    destruct (star_greedy_sound _ _ _ _ _ _ H) as (w & s' & -> & Hw & Hk).
    exists (advance (Some x) w), s'; simpl; split; [|assumption].
    exists x, w; auto.
  - destruct (star_lazy_sound _ _ _ _ _ _ H) as (w & s' & -> & Hw & Hk).
    exists (advance prev w), s'; simpl; eauto.
  - destruct (word_boundary prev s) eqn:E; [|discriminate].
    exists prev, s; simpl; auto.
  - destruct (at_bol prev) eqn:E; [|discriminate].
    exists prev, s; simpl; auto.
  - destruct (at_eol s) eqn:E; [|discriminate].
    exists prev, s; simpl; auto.
  - destruct (at_eos s) eqn:E; [|discriminate].
    exists prev, s; simpl; auto.
  - destruct (IH1 _ _ _ _ _ H) as (pm & sm & H1 & H2).
    destruct (IH2 _ _ _ _ _ H2) as (p' & s' & H3 & H4).
    exists p', s'; simpl; eauto.
  - unfold orelse in H. destruct (run r1 k prev s) eqn:E.
    + destruct (IH1 _ _ _ _ _ E) as (p' & s' & H1 & H2).
      exists p', s'; simpl; split; [auto|congruence].
    + destruct (IH2 _ _ _ _ _ H) as (p' & s' & H1 & H2).
      exists p', s'; simpl; auto.
  - destruct (run r1 (fun _ _ => Some tt) prev s) eqn:E; [|discriminate].
    destruct (IH1 _ _ _ _ _ E) as (p1 & s1 & H1 & _).
    exists prev, s; simpl; repeat split; eauto.
Qed.

Lemma run_complete :
  forall r R (k : option ascii -> text -> option R) prev s p' s' v,
    den r prev s p' s' -> k p' s' = Some v ->
    exists v', run r k prev s = Some v'.
Proof.
  induction r as [|c|c|p|p|p| | | | |r1 IH1 r2 IH2|r1 IH1 r2 IH2|r1 IH1];
    intros R k prev s p' s' v D K; simpl in D |- *.
  - destruct D as [-> ->]; eauto.
  - destruct D as [-> ->]. rewrite Ascii.eqb_refl; eauto.
  - destruct D as (x & -> & E & ->). rewrite E; eauto.
  - destruct D as (w & -> & Hw & ->). eapply star_greedy_complete; eauto.
  - destruct D as (x & w & -> & E & Hw & ->). rewrite E.
    eapply star_greedy_complete; eauto.
  - destruct D as (w & -> & Hw & ->). eapply star_lazy_complete; eauto.
  - destruct D as (E & -> & ->). rewrite E; eauto.
  - destruct D as (E & -> & ->). rewrite E; eauto.
  - destruct D as (E & -> & ->). rewrite E; eauto.
  - destruct D as (E & -> & ->). rewrite E; eauto.
  - destruct D as (pm & sm & D1 & D2).
    destruct (IH2 _ k _ _ _ _ _ D2 K) as [v2 H2].
    eapply IH1; eauto.
  - destruct D as [D|D].
    + destruct (IH1 _ k _ _ _ _ _ D K) as [v1 ->]; simpl; eauto.
    + destruct (run r1 k prev s); simpl; eauto.
  - destruct D as ((p1 & s1 & D1) & -> & ->).
    destruct (IH1 _ (fun _ _ => Some tt) _ _ _ _ tt D1 eq_refl) as [[] ->].
    eauto.
Qed.

(** A match consumes a prefix of what is left of the subject. *)
Lemma den_prefix : forall r prev s p' s',
    den r prev s p' s' -> exists w, s = w ++ s' /\ p' = advance prev w.
Proof.
  induction r as [|c|c|p|p|p| | | | |r1 IH1 r2 IH2|r1 IH1 r2 IH2|r1 IH1];
    intros prev s p' s' D; simpl in D.
  - destruct D as [-> ->]; exists []; auto.
  - destruct D as [-> ->]; exists [c]; auto.
  - destruct D as (x & -> & _ & ->); exists [x]; auto.
  - destruct D as (w & -> & _ & ->); eauto.
  - destruct D as (x & w & -> & _ & _ & ->); exists (x :: w); auto.
  - destruct D as (w & -> & _ & ->); eauto.
  - destruct D as (_ & -> & ->); exists []; auto.
  - destruct D as (_ & -> & ->); exists []; auto.
  - destruct D as (_ & -> & ->); exists []; auto.
  - destruct D as (_ & -> & ->); exists []; auto.
  - destruct D as (pm & sm & D1 & D2).
    destruct (IH1 _ _ _ _ D1) as (w1 & -> & ->).
    destruct (IH2 _ _ _ _ D2) as (w2 & -> & ->).
    exists (w1 ++ w2); split; [apply app_assoc|].
    clear. revert prev. induction w1; simpl; auto.
  - destruct D as [D|D]; eauto.
  - destruct D as (_ & -> & ->); exists []; auto.
Qed.

Lemma den_shorter : forall r prev s p' s',
    den r prev s p' s' -> length s' <= length s.
Proof.
  intros r prev s p' s' D. apply den_prefix in D as (w & -> & _).
  rewrite length_app. lia.
Qed.

(** The matches of a pattern that consumes are not empty. *)
Lemma den_consumes : forall r prev s p' s',
    consumes r = true -> den r prev s p' s' -> length s' < length s.
Proof.
  induction r as [|c|c|p|p|p| | | | |r1 IH1 r2 IH2|r1 IH1 r2 IH2|r1 IH1];
    intros prev s p' s' C D; simpl in C, D; try discriminate.
  - destruct D as [-> _]. simpl; lia.
  - destruct D as (x & -> & _). simpl; lia.
  - destruct D as (x & w & -> & _). simpl. rewrite length_app. lia.
  - destruct D as (pm & sm & D1 & D2).
    pose proof (den_shorter _ _ _ _ _ D1).
    pose proof (den_shorter _ _ _ _ _ D2).
    apply orb_prop in C as [C|C].
    + specialize (IH1 _ _ _ _ C D1). lia.
    + specialize (IH2 _ _ _ _ C D2). lia.
  - apply andb_prop in C as [C1 C2]. destruct D as [D|D]; eauto.
Qed.

Lemma advance_app : forall w1 w2 prev,
    advance prev (w1 ++ w2) = advance (advance prev w1) w2.
Proof. induction w1; simpl; auto. Qed.

Lemma match_at_sound : forall r prev s rest,
    match_at r prev s = Some rest -> exists p', den r prev s p' rest.
Proof.
  intros r prev s rest H. apply run_sound in H.
  destruct H as (p' & s' & D & E). inversion E; subst. eauto.
Qed.

Lemma match_at_complete : forall r prev s p' rest,
    den r prev s p' rest -> exists rest', match_at r prev s = Some rest'.
Proof.
  intros r prev s p' rest D. unfold match_at.
  eapply run_complete; eauto.
Qed.

(** The patterns given to [finditer] and to [re.sub] never match the empty
    string. *)
Lemma match_at_consumes : forall r prev s rest,
    consumes r = true -> match_at r prev s = Some rest ->
    length rest < length s.
Proof.
  intros r prev s rest C H. apply match_at_sound in H as [p' D].
  eapply den_consumes; eauto.
Qed.

Lemma scanned_patterns_consume :
  consumes STMT_RE = true /\ consumes STAR_RE = true
  /\ consumes INLINE_RE = true.
Proof. repeat split. Qed.

(** [search] finds a match exactly when the pattern can match somewhere. *)
Lemma search_from_spec : forall r s prev,
    search_from r prev s = true <->
    exists pre s1 p' s', s = pre ++ s1 /\ den r (advance prev pre) s1 p' s'.
Proof.
  intros r s. induction s as [|c s IH]; intros prev; simpl.
  - destruct (match_at r prev []) eqn:E.
    + split; [intros _|auto]. apply match_at_sound in E as [p' D].
      exists [], [], p', t; auto.
    + split; [discriminate|]. intros (pre & s1 & p' & s' & Hs & D).
      symmetry in Hs. apply app_eq_nil in Hs as [-> ->]. simpl in D.
      apply match_at_complete in D as [? D]. congruence.
  - destruct (match_at r prev (c :: s)) eqn:E.
    + split; [intros _|auto]. apply match_at_sound in E as [p' D].
      exists [], (c :: s), p', t; auto.
    + rewrite IH. split.
      * intros (pre & s1 & p' & s' & -> & D).
        exists (c :: pre), s1, p', s'; auto.
      * intros (pre & s1 & p' & s' & Hs & D).
        destruct pre as [|x pre]; simpl in *.
        -- subst s1. apply match_at_complete in D as [? D]. congruence.
        -- inversion Hs; subst. exists pre, s1, p', s'; auto.
Qed.

Lemma search_spec : forall r s,
    search r s = true <->
    exists pre s1 p' s', s = pre ++ s1 /\ den r (advance None pre) s1 p' s'.
Proof. intros; apply search_from_spec. Qed.

(** ** Characters, by enumeration of the 256 code points *)

Lemma ascii_enum : forall (P : ascii -> bool),
    forallb P (map ascii_of_nat (seq 0 256)) = true -> forall c, P c = true.
Proof.
  intros P H c. rewrite forallb_forall in H. apply H.
  rewrite <- (ascii_nat_embedding c). apply in_map, in_seq.
  pose proof (nat_ascii_bounded c). lia.
Qed.

Lemma lower_word : forall c, Char.is_word (Char.lower c) = Char.is_word c.
Proof.
  intro c. apply Bool.eqb_prop.
  apply ascii_enum
    with (P := fun c => Bool.eqb (Char.is_word (Char.lower c))
                                 (Char.is_word c)).
  vm_compute; reflexivity.
Qed.

Lemma space_not_word : forall c, Char.is_space c = true -> Char.is_word c = false.
Proof.
  intros c H.
  assert (E : implb (Char.is_space c) (negb (Char.is_word c)) = true)
    by (apply ascii_enum with (P := fun c => implb (Char.is_space c)
                                            (negb (Char.is_word c)));
        vm_compute; reflexivity).
  rewrite H in E. simpl in E. now apply negb_true_iff in E.
Qed.

Lemma eqb_ci_word : forall c x,
    Char.eqb_ci c x = true -> Char.is_word x = Char.is_word c.
Proof.
  unfold Char.eqb_ci. intros c x H. apply Ascii.eqb_eq in H.
  rewrite <- (lower_word x), <- (lower_word c). now rewrite H.
Qed.

(** ** Sequences of patterns and phrases *)

Lemma den_pat_app : forall rs1 rs2 prev s p' s',
    den (pat (rs1 ++ rs2)) prev s p' s' <->
    exists pm sm, den (pat rs1) prev s pm sm /\ den (pat rs2) pm sm p' s'.
Proof.
  induction rs1 as [|r rs1 IH]; intros rs2 prev s p' s'; simpl.
  - split.
    + intros D. exists prev, s; auto.
    + intros (pm & sm & [-> ->] & D); auto.
  - split.
    + intros (pm & sm & D1 & D2). apply IH in D2 as (pm' & sm' & D2 & D3).
      exists pm', sm'; split; [exists pm, sm|]; auto.
    + intros (pm' & sm' & (pm & sm & D1 & D2) & D3).
      exists pm, sm; split; [auto|]. apply IH. exists pm', sm'; auto.
Qed.

Lemma den_lits : forall w prev s p' s',
    den (pat (map ChrI w)) prev s p' s' <->
    exists kw, s = kw ++ s' /\ map Char.lower kw = map Char.lower w
               /\ p' = advance prev kw.
Proof.
  induction w as [|c w IH]; intros prev s p' s'; simpl.
  - split.
    + intros [-> ->]. exists []; auto.
    + intros (kw & -> & E & ->). apply map_eq_nil in E; subst kw; auto.
  - split.
    + intros (pm & sm & (x & -> & E & ->) & D).
      apply IH in D as (kw & -> & Hkw & ->).
      exists (x :: kw); simpl; repeat split; auto.
      apply Ascii.eqb_eq in E. now rewrite E, Hkw.
    + intros (kw & -> & E & ->).
      destruct kw as [|x kw]; [discriminate|]. simpl in E.
      inversion E as [[Ex Ekw]].
      exists (Some x), (kw ++ s'); split.
      * exists x; repeat split; auto. unfold Char.eqb_ci.
        now apply Ascii.eqb_eq.
      * apply IH. exists kw; auto.
Qed.

Lemma den_liti : forall w prev s p' s',
    den (liti w) prev s p' s' <->
    exists kw, s = kw ++ s' /\ same_word w kw /\ p' = advance prev kw.
Proof. intros; apply den_lits. Qed.

Lemma den_plus : forall p prev s p' s',
    den (Plus p) prev s p' s' <->
    exists g, s = g ++ s' /\ g <> [] /\ forallb p g = true
              /\ p' = advance prev g.
Proof.
  intros p prev s p' s'; simpl; split.
  - intros (x & w & -> & Hx & Hw & ->).
    exists (x :: w); simpl; rewrite Hx; repeat split; auto; discriminate.
  - intros (g & -> & Hne & Hg & ->).
    destruct g as [|x w]; [congruence|]. simpl in Hg.
    apply andb_prop in Hg as [Hx Hw]. exists x, w; auto.
Qed.

Lemma den_phrase_body : forall ws w prev s p' s',
    den (pat (phrase_body w ws)) prev s p' s' <->
    exists occ, s = occ ++ s' /\ phrase_text w ws occ /\ p' = advance prev occ.
Proof.
  induction ws as [|w' ws IH]; intros w prev s p' s'.
  - change (pat (phrase_body w [])) with (Cat (liti w) Eps).
    change (den (Cat (liti w) Eps) prev s p' s')
      with (exists pm sm, den (liti w) prev s pm sm /\ (p' = pm /\ s' = sm)).
    split.
    + intros (pm & sm & D & -> & ->). apply den_liti in D. exact D.
    + intros D. exists p', s'; split; [now apply den_liti|auto].
  - change (pat (phrase_body w (w' :: ws)))
      with (Cat (liti w) (Cat (Plus Char.is_space) (pat (phrase_body w' ws)))).
    change (den (Cat (liti w) (Cat (Plus Char.is_space)
                                   (pat (phrase_body w' ws)))) prev s p' s')
      with (exists pm sm, den (liti w) prev s pm sm /\
            exists pm' sm', den (Plus Char.is_space) pm sm pm' sm' /\
                            den (pat (phrase_body w' ws)) pm' sm' p' s').
    split.
    + intros (pm & sm & D1 & pm' & sm' & D2 & D3).
      apply den_liti in D1 as (kw & -> & Hkw & ->).
      apply den_plus in D2 as (g & -> & Hne & Hg & ->).
      apply IH in D3 as (occ' & -> & Hocc & ->).
      exists (kw ++ g ++ occ'); repeat split.
      * now rewrite <- !app_assoc.
      * simpl. exists kw, g, occ'; repeat split; auto.
      * now rewrite !advance_app.
    + intros (occ & -> & Hocc & ->). simpl in Hocc.
      destruct Hocc as (kw & g & occ' & -> & Hkw & [Hne Hg] & Hocc).
      exists (advance prev kw), ((g ++ occ') ++ s'); split.
      * apply den_liti. exists kw; repeat split; auto.
        now rewrite <- !app_assoc.
      * exists (advance (advance prev kw) g), (occ' ++ s'); split.
        -- apply den_plus. exists g; repeat split; auto.
           now rewrite <- app_assoc.
        -- apply IH. exists occ'; repeat split; auto.
           now rewrite !advance_app.
Qed.

Lemma den_phrase_re : forall w ws prev s p' s',
    den (phrase_re w ws) prev s p' s' <->
    exists occ, s = occ ++ s' /\ phrase_text w ws occ
                /\ p' = advance prev occ
                /\ word_boundary prev s = true
                /\ word_boundary p' s' = true.
Proof.
  intros w ws prev s p' s'. unfold phrase_re.
  change (pat (WordB :: phrase_body w ws ++ [WordB]))
    with (Cat WordB (pat (phrase_body w ws ++ [WordB]))).
  change (den (Cat WordB (pat (phrase_body w ws ++ [WordB]))) prev s p' s')
    with (exists pm sm, (word_boundary prev s = true /\ pm = prev /\ sm = s)
                        /\ den (pat (phrase_body w ws ++ [WordB])) pm sm p' s').
  split.
  - intros (pm & sm & (Hb & -> & ->) & D).
    apply den_pat_app in D as (pm & sm & D1 & D2).
    apply den_phrase_body in D1 as (occ & -> & Hocc & ->).
    simpl in D2. destruct D2 as (pm' & sm' & (Hb' & -> & ->) & -> & ->).
    exists occ; repeat split; auto.
  - intros (occ & -> & Hocc & -> & Hb & Hb').
    exists prev, (occ ++ s'); split; [auto|].
    apply den_pat_app. exists (advance prev occ), s'; split.
    + apply den_phrase_body. exists occ; auto.
    + simpl. exists (advance prev occ), s'; auto.
Qed.

(** Searching for the pattern of a phrase decides whether the statement
    contains the phrase. *)
Lemma search_phrase : forall w ws stmt,
    search (phrase_re w ws) stmt = true <-> contains_phrase w ws stmt.
Proof.
  intros w ws stmt. rewrite search_spec. unfold contains_phrase. split.
  - intros (pre & s1 & p' & s' & -> & D).
    apply den_phrase_re in D as (occ & -> & Hocc & -> & Hb & Hb').
    exists pre, occ, s'; repeat split; auto. now rewrite advance_app.
  - intros (pre & occ & post & -> & Hocc & Hb & Hb').
    exists pre, (occ ++ post), (advance (advance None pre) occ), post.
    split; [auto|]. apply den_phrase_re. exists occ; repeat split; auto.
    now rewrite <- advance_app.
Qed.

Lemma HAS_CODEPAGE_phrase : HAS_CODEPAGE = phrase_re "CODE" ["PAGE"%string].
Proof. reflexivity. Qed.

Lemma FROM_CP_phrase :
  FROM_CP = phrase_re "FROM" ["CODE"%string; "PAGE"%string].
Proof. reflexivity. Qed.

Lemma TO_CP_phrase : TO_CP = phrase_re "TO" ["CODE"%string; "PAGE"%string].
Proof. reflexivity. Qed.

Lemma search_HAS_CODEPAGE : forall stmt,
    search HAS_CODEPAGE stmt = true <->
    contains_phrase "CODE" ["PAGE"%string] stmt.
Proof. intro; rewrite HAS_CODEPAGE_phrase; apply search_phrase. Qed.

Lemma search_FROM_CP : forall stmt,
    search FROM_CP stmt = true <->
    contains_phrase "FROM" ["CODE"%string; "PAGE"%string] stmt.
Proof. intro; rewrite FROM_CP_phrase; apply search_phrase. Qed.

Lemma search_TO_CP : forall stmt,
    search TO_CP stmt = true <->
    contains_phrase "TO" ["CODE"%string; "PAGE"%string] stmt.
Proof. intro; rewrite TO_CP_phrase; apply search_phrase. Qed.

(** An alternative inside a sequence is the alternative of the sequences. *)
Lemma den_pat_alt : forall rs1 a b rs2 prev s p' s',
    den (pat (rs1 ++ Alt a b :: rs2)) prev s p' s' <->
    den (pat (rs1 ++ a :: rs2)) prev s p' s'
    \/ den (pat (rs1 ++ b :: rs2)) prev s p' s'.
Proof.
  intros rs1 a b rs2 prev s p' s'. rewrite !den_pat_app. simpl. split.
  - intros (pm & sm & D1 & pm' & sm' & [D2|D2] & D3);
      [left|right]; exists pm, sm; split; auto; exists pm', sm'; auto.
  - intros [(pm & sm & D1 & pm' & sm' & D2 & D3)
           |(pm & sm & D1 & pm' & sm' & D2 & D3)];
      exists pm, sm; split; auto; exists pm', sm'; auto.
Qed.

Lemma den_LEGACY_CP : forall prev s p' s',
    den LEGACY_CP prev s p' s' <->
    den (phrase_re "CODE" ["PAGE"%string; "CP1"%string]) prev s p' s'
    \/ den (phrase_re "CODE" ["PAGE"%string; "CP2"%string]) prev s p' s'.
Proof.
  intros.
  apply (den_pat_alt [WordB; liti "CODE"; Plus Char.is_space; liti "PAGE";
                      Plus Char.is_space] (liti "CP1") (liti "CP2") [WordB]).
Qed.

Lemma search_LEGACY_CP : forall stmt,
    search LEGACY_CP stmt = true <->
    contains_phrase "CODE" ["PAGE"%string; "CP1"%string] stmt
    \/ contains_phrase "CODE" ["PAGE"%string; "CP2"%string] stmt.
Proof.
  intro stmt. rewrite <- !search_phrase, !search_spec. split.
  - intros (pre & s1 & p' & s' & -> & D). apply den_LEGACY_CP in D as [D|D];
      [left|right]; exists pre, s1, p', s'; auto.
  - intros [(pre & s1 & p' & s' & -> & D)|(pre & s1 & p' & s' & -> & D)];
      exists pre, s1, p', s'; (split; [auto|]); apply den_LEGACY_CP; auto.
Qed.

(** ** Words *)

Lemma same_word_length : forall w kw,
    same_word w kw -> length kw = length (txt w).
Proof.
  unfold same_word; intros w kw H.
  rewrite <- (length_map Char.lower kw), H. apply length_map.
Qed.

Lemma forallb_word_lower : forall l,
    forallb Char.is_word (map Char.lower l) = forallb Char.is_word l.
Proof.
  induction l as [|c l IH]; simpl; [auto|]. now rewrite lower_word, IH.
Qed.

Lemma same_word_word : forall w kw,
    same_word w kw ->
    forallb Char.is_word kw = forallb Char.is_word (txt w).
Proof.
  unfold same_word; intros w kw H.
  rewrite <- (forallb_word_lower kw), H. apply forallb_word_lower.
Qed.

Lemma word_after_run : forall kw s,
    kw <> [] -> forallb Char.is_word kw = true -> word_after (kw ++ s) = true.
Proof.
  intros [|c kw] s Hne H; [congruence|]. simpl in *.
  now apply andb_prop in H as [H _].
Qed.

Lemma word_before_run : forall kw prev,
    kw <> [] -> forallb Char.is_word kw = true ->
    word_before (advance prev kw) = true.
Proof.
  induction kw as [|c kw IH]; intros prev Hne H; [congruence|].
  simpl in *. apply andb_prop in H as [Hc H].
  destruct kw as [|d kw]; [exact Hc|]. apply IH; [discriminate|exact H].
Qed.

Lemma word_after_blank : forall g s, blank g -> word_after (g ++ s) = false.
Proof.
  intros [|c g] s [Hne H]; [congruence|]. simpl in *.
  apply andb_prop in H as [H _]. now apply space_not_word.
Qed.

(** A phrase that ends in a legacy page name begins with CODE PAGE. *)
Lemma legacy_has_codepage : forall cp stmt,
    contains_phrase "CODE" ["PAGE"%string; cp] stmt ->
    contains_phrase "CODE" ["PAGE"%string] stmt.
Proof.
  intros cp stmt (pre & occ & post & -> & Hocc & Hb & Hb').
  simpl in Hocc.
  destruct Hocc as (kw1 & g1 & occ1 & -> & Hk1 & Hg1 &
                    kw2 & g2 & occ2 & -> & Hk2 & Hg2 & Hk3).
  exists pre, (kw1 ++ g1 ++ kw2), (g2 ++ occ2 ++ post). repeat split.
  - now rewrite <- !app_assoc.
  - simpl. exists kw1, g1, kw2; auto.
  - rewrite <- Hb. f_equal. now rewrite <- !app_assoc.
  - unfold word_boundary.
    rewrite word_after_blank by assumption.
    rewrite !app_assoc, advance_app, word_before_run; [reflexivity| |].
    + intros ->. apply same_word_length in Hk2. discriminate.
    + rewrite (same_word_word _ _ Hk2). reflexivity.
Qed.

Lemma den_LIKELY_XVAR : forall prev s p' s',
    den LIKELY_XVAR prev s p' s' <->
    exists p w,
      s = p ++ w ++ s'
      /\ (same_word "lx_" p \/ same_word "xstr" p \/ same_word "xstring" p)
      /\ forallb Char.is_word w = true
      /\ p' = advance prev (p ++ w)
      /\ word_boundary prev s = true
      /\ word_boundary p' s' = true.
Proof.
  intros prev s p' s'. unfold LIKELY_XVAR. cbn [den pat fold_right].
  split.
  - intros (p0 & s0 & (Hb & -> & ->) & pm & sm & D & p1 & s1
            & (w & -> & Hw & ->) & p2 & s2 & (Hb' & -> & ->) & Ep & Es).
    subst p' s1.
    assert (exists p, s = p ++ w ++ s'
                      /\ (same_word "lx_" p \/ same_word "xstr" p
                          \/ same_word "xstring" p)
                      /\ pm = advance prev p) as (p & -> & Hp & ->).
    { rewrite !den_liti in D.
      destruct D as [(p & -> & H & ->)|[(p & -> & H & ->)|(p & -> & H & ->)]];
        exists p; auto. }
    exists p, w; repeat split; auto. now rewrite advance_app.
  - intros (p & w & -> & Hp & Hw & -> & Hb & Hb').
    exists prev, (p ++ w ++ s'); split; [auto|].
    exists (advance prev p), (w ++ s'); split.
    + rewrite !den_liti.
      destruct Hp as [H|[H|H]]; [left|right; left|right; right];
        exists p; auto.
    + exists (advance (advance prev p) w), s'; split; [exists w; auto|].
      rewrite advance_app in Hb'.
      exists (advance (advance prev p) w), s'; repeat split; auto.
      now rewrite advance_app.
Qed.

Lemma xvar_prefix_word : forall p,
    same_word "lx_" p \/ same_word "xstr" p \/ same_word "xstring" p ->
    p <> [] /\ forallb Char.is_word p = true.
Proof.
  intros p [H|[H|H]]; (split;
    [intros ->; apply same_word_length in H; discriminate
    |rewrite (same_word_word _ _ H); reflexivity]).
Qed.

(** Searching for [LIKELY_XVAR] decides whether the statement contains such
    an identifier. *)
Lemma search_LIKELY_XVAR : forall stmt,
    search LIKELY_XVAR stmt = true <-> contains_xvar stmt.
Proof.
  intro stmt. rewrite search_spec. unfold contains_xvar. split.
  - intros (pre & s1 & p' & s' & -> & D).
    apply den_LIKELY_XVAR in D as (p & w & -> & Hp & Hw & -> & Hb & Hb').
    destruct (xvar_prefix_word _ Hp) as [Hne Hpw].
    assert (Hi : forallb Char.is_word (p ++ w) = true)
      by (rewrite forallb_app, Hpw, Hw; reflexivity).
    assert (Hn : p ++ w <> []) by (destruct p; [congruence|discriminate]).
    exists pre, (p ++ w), s'. repeat split.
    + now rewrite <- app_assoc.
    + exact Hi.
    + unfold word_boundary in Hb. rewrite word_after_run in Hb by assumption.
      now destruct (word_before (advance None pre)).
    + unfold word_boundary in Hb'. rewrite word_before_run in Hb' by assumption.
      now destruct (word_after s').
    + destruct Hp as [H|[H|H]];
        [exists "lx_"%string|exists "xstr"%string|exists "xstring"%string];
        exists p, w; simpl; auto.
  - intros (pre & ident & post & -> & Hi & Hb & Hb' & pfx & p & tail
            & Hin & -> & Hp).
    assert (Hp' : same_word "lx_" p \/ same_word "xstr" p
                  \/ same_word "xstring" p)
      by (simpl in Hin; destruct Hin as [<-|[<-|[<-|[]]]]; auto).
    destruct (xvar_prefix_word _ Hp') as [Hne Hpw].
    assert (Hn : p ++ tail <> []) by (destruct p; [congruence|discriminate]).
    exists pre, ((p ++ tail) ++ post), (advance (advance None pre) (p ++ tail)),
      post. split; [auto|].
    apply den_LIKELY_XVAR. exists p, tail. repeat split; auto.
    + now rewrite <- app_assoc.
    + now rewrite forallb_app, Hpw in Hi.
    + unfold word_boundary. rewrite word_after_run, Hb by assumption.
      reflexivity.
    + unfold word_boundary. rewrite word_before_run, Hb' by assumption.
      reflexivity.
Qed.

(** ** The scan of a unit *)

Lemma scan_unit_code : forall unit body,
    Unit.code unit = Some body ->
    rule118_findings (scan_unit unit)
    = flat_map (scan_match unit body) (statements body).
Proof.
  intros unit body H. unfold scan_unit, source_of. now rewrite H.
Qed.

Lemma scan_match_in_unit : forall unit m f,
    In m (statements (source_of unit)) ->
    In f (scan_match unit (source_of unit) m) ->
    In f (rule118_findings (scan_unit unit)).
Proof.
  intros unit m f Hm Hf. unfold scan_unit; simpl.
  apply in_flat_map. exists m; auto.
Qed.

Lemma scan_match_kept : forall unit src m,
    is_entirely_commented (group0 src m) = false ->
    scan_match unit src m
    = classify unit src (fst m) (snd m) (stmt_of src m).
Proof.
  intros unit src [a b] H. unfold scan_match, stmt_of. now rewrite H.
Qed.

Lemma kinds_app : forall fs gs, kinds (fs ++ gs) = kinds fs ++ kinds gs.
Proof. intros; apply map_app. Qed.

Lemma reports_kinds : forall fs issue severity,
    reports fs issue severity <-> In (issue, severity) (kinds fs).
Proof.
  intros fs issue severity. unfold reports, kinds. rewrite in_map_iff. split.
  - intros (f & Hf & <- & <-). exists f; auto.
  - intros (f & E & Hf). inversion E; subst. exists f; auto.
Qed.

(** The issue types and severities of the checks that fire, in the order of
    the code. *)
Lemma kinds_classify : forall unit src a b stmt,
    kinds (classify unit src a b stmt)
    = (if search HAS_CODEPAGE stmt then [OBSOLETE] else [])
      ++ (if search LEGACY_CP stmt then [LEGACY] else [])
      ++ (if search HAS_CODEPAGE stmt
             && negb (search FROM_CP stmt || search TO_CP stmt)
          then [MISSING] else [])
      ++ (if search HEX_LITERAL stmt || search LIKELY_XVAR stmt
          then [RISK] else []).
Proof.
  intros. unfold classify. rewrite !kinds_app. unfold when.
  destruct (search HAS_CODEPAGE stmt), (search LEGACY_CP stmt),
    (search FROM_CP stmt), (search TO_CP stmt),
    (search HEX_LITERAL stmt), (search LIKELY_XVAR stmt); reflexivity.
Qed.

(** Each finding of a match carries the line and the snippet of that match. *)
Lemma classify_located : forall unit src a b stmt f,
    In f (classify unit src a b stmt) ->
    Finding.line f = line_of_offset src (Z.of_nat a)
    /\ Finding.snippet f = snippet_at src (Z.of_nat a) (Z.of_nat b).
Proof.
  intros unit src a b stmt f H. unfold classify, when in H.
  repeat (apply in_app_or in H as [H|H]);
    match type of H with
    | In _ (if ?c then _ else _) => destruct c
    end; simpl in H; try contradiction;
    destruct H as [<-|[]]; auto.
Qed.

Lemma In_kinds_flags : forall (b1 b2 b3 b4 : bool),
    (In OBSOLETE ((if b1 then [OBSOLETE] else [])
                  ++ (if b2 then [LEGACY] else [])
                  ++ (if b3 then [MISSING] else [])
                  ++ (if b4 then [RISK] else [])) <-> b1 = true)
    /\ (In LEGACY ((if b1 then [OBSOLETE] else [])
                   ++ (if b2 then [LEGACY] else [])
                   ++ (if b3 then [MISSING] else [])
                   ++ (if b4 then [RISK] else [])) <-> b2 = true)
    /\ (In MISSING ((if b1 then [OBSOLETE] else [])
                    ++ (if b2 then [LEGACY] else [])
                    ++ (if b3 then [MISSING] else [])
                    ++ (if b4 then [RISK] else [])) <-> b3 = true)
    /\ (In RISK ((if b1 then [OBSOLETE] else [])
                 ++ (if b2 then [LEGACY] else [])
                 ++ (if b3 then [MISSING] else [])
                 ++ (if b4 then [RISK] else [])) <-> b4 = true).
Proof.
  unfold OBSOLETE, LEGACY, MISSING, RISK.
  intros [] [] [] []; simpl; repeat split; intros H;
    try reflexivity; try discriminate; auto;
    repeat (destruct H as [H|H]; try discriminate H); try contradiction.
Qed.

(** A check fires exactly when its issue is among the findings of the
    match. *)
Lemma reports_classify : forall unit src a b stmt,
    let fs := classify unit src a b stmt in
    (reports fs (fst OBSOLETE) (snd OBSOLETE)
     <-> search HAS_CODEPAGE stmt = true)
    /\ (reports fs (fst LEGACY) (snd LEGACY)
        <-> search LEGACY_CP stmt = true)
    /\ (reports fs (fst MISSING) (snd MISSING)
        <-> search HAS_CODEPAGE stmt
            && negb (search FROM_CP stmt || search TO_CP stmt) = true)
    /\ (reports fs (fst RISK) (snd RISK)
        <-> search HEX_LITERAL stmt || search LIKELY_XVAR stmt = true).
Proof.
  intros unit src a b stmt fs. subst fs. rewrite !reports_kinds.
  rewrite kinds_classify. apply In_kinds_flags.
Qed.

(** A finding of a match with the issue and the severity of a check is also
    a finding of the unit, and is located at the match. *)
Lemma reported_at : forall unit m issue severity,
    In m (statements (source_of unit)) ->
    is_entirely_commented (group0 (source_of unit) m) = false ->
    reports (classify unit (source_of unit) (fst m) (snd m)
               (stmt_of (source_of unit) m)) issue severity ->
    exists f,
      In f (scan_match unit (source_of unit) m)
      /\ In f (rule118_findings (scan_unit unit))
      /\ Finding.issue_type f = issue
      /\ Finding.severity f = severity
      /\ Finding.line f = line_of_offset (source_of unit) (Z.of_nat (fst m))
      /\ Finding.snippet f
         = snippet_at (source_of unit) (Z.of_nat (fst m)) (Z.of_nat (snd m)).
Proof.
  intros unit m issue severity Hm Hc (f & Hf & Hi & Hs).
  pose proof (classify_located _ _ _ _ _ _ Hf) as [Hl Hsn].
  rewrite <- scan_match_kept in Hf by assumption.
  exists f; repeat split; auto. eapply scan_match_in_unit; eauto.
Qed.

(** ** Snippets *)

Lemma slice_substring : forall t a b,
    (0 <= a <= b)%Z -> (b <= Z.of_nat (length t))%Z ->
    slice t a b = substring t (Z.to_nat a) (Z.to_nat b).
Proof.
  intros t a b Ha Hb. unfold slice, substring, clamp_index.
  destruct (Z.ltb_spec a 0) as [?|_]; [lia|].
  destruct (Z.ltb_spec b 0) as [?|_]; [lia|].
  rewrite !Z.min_l by lia. f_equal. lia.
Qed.

Lemma escape_newlines_no_newline : forall t,
    ~ In Char.newline (escape_newlines t).
Proof.
  induction t as [|c t IH]; simpl; [auto|].
  intros H. apply in_app_or in H as [H|H]; [|auto].
  destruct (Ascii.eqb c Char.newline) eqn:E.
  - simpl in H. destruct H as [H|[H|[]]]; discriminate H.
  - simpl in H. destruct H as [H|[]]. subst c.
    now rewrite Ascii.eqb_refl in E.
Qed.

(** ** The matches of [finditer] *)

Lemma finditer_from_bounds : forall r s pos skip prev,
    Forall (fun m => pos + skip <= fst m) (finditer_from r pos skip prev s).
Proof.
  intros r s. induction s as [|c s IH]; intros pos skip prev.
  - destruct skip; simpl; [|constructor].
    destruct (match_at r prev []); constructor; simpl; [lia|constructor].
  - destruct skip as [|n]; simpl.
    + destruct (match_at r prev (c :: s)) as [rest|].
      * constructor; [simpl; lia|].
        eapply Forall_impl; [|apply IH]. simpl; intros; lia.
      * eapply Forall_impl; [|apply IH]. simpl; intros; lia.
    + eapply Forall_impl; [|apply IH]. simpl; intros; lia.
Qed.

Lemma finditer_from_sorted : forall r s pos skip prev,
    StronglySorted span_before (finditer_from r pos skip prev s).
Proof.
  intros r s. induction s as [|c s IH]; intros pos skip prev.
  - destruct skip; simpl; [|constructor].
    destruct (match_at r prev []); repeat constructor.
  - destruct skip as [|n]; simpl; [|apply IH].
    destruct (match_at r prev (c :: s)) as [rest|]; [|apply IH].
    constructor; [apply IH|].
    eapply Forall_impl; [|apply finditer_from_bounds].
    unfold span_before; simpl; intros m H. lia.
Qed.

(** Every span of [finditer] is a match of the pattern at its start. *)
Lemma finditer_from_match : forall r s pos skip prev pre a b,
    length pre = pos -> prev = advance None pre ->
    In (a, b) (finditer_from r pos skip prev s) ->
    exists pre' s' rest,
      pre ++ s = pre' ++ s' /\ length pre' = a
      /\ match_at r (advance None pre') s' = Some rest
      /\ b = a + (length s' - length rest).
Proof.
  intros r s. induction s as [|c s IH]; intros pos skip prev pre a b Hl Hp H.
  - destruct skip; simpl in H; [|contradiction].
    destruct (match_at r prev []) as [rest|] eqn:E; [|contradiction].
    destruct H as [H|[]]. inversion H; subst.
    exists pre, [], rest; auto.
  - assert (Hs : forall n, In (a, b) (finditer_from r (S pos) n (Some c) s) ->
                 exists pre' s' rest,
                   pre ++ c :: s = pre' ++ s' /\ length pre' = a
                   /\ match_at r (advance None pre') s' = Some rest
                   /\ b = a + (length s' - length rest)).
    { intros n Hn.
      destruct (IH (S pos) n (Some c) (pre ++ [c]) a b) as (pre' & s' & H');
        auto.
      - rewrite length_app; simpl; lia.
      - now rewrite advance_app.
      - exists pre', s'. now rewrite <- app_assoc in H'. }
    destruct skip as [|n]; simpl in H; [|eauto].
    destruct (match_at r prev (c :: s)) as [rest|] eqn:E; [|eauto].
    destruct H as [H|H]; [|eauto]. inversion H; subst.
    exists pre, (c :: s), rest; auto.
Qed.

Lemma lower_dot : forall x, Char.eqb_ci Char.dot x = true -> x = Char.dot.
Proof.
  intros x H. apply Ascii.eqb_eq.
  assert (E : implb (Char.eqb_ci Char.dot x) (Ascii.eqb x Char.dot) = true)
    by (apply ascii_enum
          with (P := fun x => implb (Char.eqb_ci Char.dot x)
                                    (Ascii.eqb x Char.dot));
        vm_compute; reflexivity).
  now rewrite H in E.
Qed.

Lemma den_STMT_RE : forall prev s p' s',
    den STMT_RE prev s p' s' <->
    exists kw mid,
      s = kw ++ mid ++ Char.dot :: s'
      /\ same_word "TRANSLATE" kw
      /\ forallb Char.not_dot mid = true
      /\ word_boundary prev s = true
      /\ word_boundary (advance prev kw) (mid ++ Char.dot :: s') = true
      /\ p' = Some Char.dot.
Proof.
  intros prev s p' s'. unfold STMT_RE. cbn [den pat fold_right]. split.
  - intros (p0 & s0 & (Hb & -> & ->) & p1 & s1 & D & p2 & s2
            & (Hb' & -> & ->) & p3 & s3 & (mid & -> & Hm & ->)
            & p4 & s4 & (x & -> & Hx & ->) & Ep & Es).
    subst p' s4. apply den_liti in D as (kw & -> & Hk & ->).
    apply lower_dot in Hx; subst x.
    exists kw, mid; repeat split; auto.
  - intros (kw & mid & -> & Hk & Hm & Hb & Hb' & ->).
    exists prev, (kw ++ mid ++ Char.dot :: s'); split; [auto|].
    exists (advance prev kw), (mid ++ Char.dot :: s'); split.
    { apply den_liti. exists kw; auto. }
    exists (advance prev kw), (mid ++ Char.dot :: s'); split; [auto|].
    exists (advance (advance prev kw) mid), (Char.dot :: s'); split.
    { exists mid; auto. }
    exists (Some Char.dot), s'; split; [|auto].
    exists Char.dot; repeat split; auto.
Qed.

Lemma app_same_length : forall (A : Type) (l1 l2 r1 r2 : list A),
    l1 ++ r1 = l2 ++ r2 -> length l1 = length l2 -> l1 = l2 /\ r1 = r2.
Proof.
  induction l1 as [|x l1 IH]; intros [|y l2] r1 r2 H Hl;
    simpl in *; try discriminate; [auto|].
  inversion H; subst. destruct (IH l2 r1 r2) as [-> ->]; auto.
Qed.

Lemma keyword_is_word : forall kw,
    same_word "TRANSLATE" kw -> kw <> [] /\ forallb Char.is_word kw = true.
Proof.
  intros kw H. split.
  - intros ->. apply same_word_length in H. discriminate.
  - rewrite (same_word_word _ _ H). reflexivity.
Qed.

(** A match of [STMT_RE] is a statement span. *)
Lemma extracted_is_span : forall t m, In m (statements t) -> statement_span t m.
Proof.
  intros t [a b] H. unfold statements, finditer in H.
  apply finditer_from_match with (pre := []) in H; auto.
  destruct H as (pre & s & rest & Ht & Hl & Hm & ->). simpl in Ht. subst t.
  apply match_at_sound in Hm as [p' D].
  apply den_STMT_RE in D as (kw & mid & -> & Hk & Hmid & Hb & Hb' & _).
  destruct (keyword_is_word _ Hk) as [Hne Hw].
  unfold word_boundary in Hb, Hb'.
  rewrite word_after_run in Hb by assumption.
  rewrite word_before_run in Hb' by assumption.
  exists kw, mid, rest. repeat split; simpl.
  - exists pre. repeat split; auto.
    + now destruct (word_before (advance None pre)).
    + now destruct (word_after (mid ++ Char.dot :: rest)).
  - exact Hmid.
  - rewrite !length_app. simpl. lia.
Qed.

(** ** The hex-literal pattern *)

(** [HEX_LITERAL] ends in [\b] after the closing quote, so it matches only
    where a word character follows that quote. *)
Lemma HEX_LITERAL_word_after : forall prev s p' s',
    den HEX_LITERAL prev s p' s' -> word_after s' = true.
Proof.
  intros prev s p' s'. unfold HEX_LITERAL. cbn [den pat fold_right].
  intros (p0 & s0 & _ & p1 & s1 & _ & p2 & s2 & _ & p3 & s3
          & (x & _ & Hx & ->) & p4 & s4 & (Hb & -> & ->) & _ & ->).
  unfold word_boundary in Hb. simpl in Hb.
  rewrite (eqb_ci_word _ _ Hx) in Hb. exact Hb.
Qed.

(** ** What the extractor leaves out and what it keeps *)

(** Every match attempt that can succeed is reported or lies inside the
    match reported before it. *)
Lemma finditer_from_cover : forall r s pos skip prev pre s1 rest,
    s = pre ++ s1 -> skip <= length pre ->
    match_at r (advance prev pre) s1 = Some rest ->
    exists a b,
      In (a, b) (finditer_from r pos skip prev s)
      /\ a <= pos + length pre
      /\ (pos + length pre < b \/ a = pos + length pre).
Proof.
  intros r s. induction s as [|c s IH];
    intros pos skip prev pre s1 rest Hs Hk Hm.
  - symmetry in Hs. apply app_eq_nil in Hs as [-> ->]. simpl in *.
    assert (skip = 0) by lia; subst skip. simpl. rewrite Hm.
    eexists _, _; split; [left; reflexivity|]. lia.
  - destruct pre as [|x pre]; simpl in *.
    + assert (skip = 0) by lia; subst skip. subst s1. simpl. rewrite Hm.
      eexists _, _; split; [left; reflexivity|]. lia.
    + inversion Hs; subst x s. destruct skip as [|n]; simpl.
      * destruct (match_at r prev (c :: pre ++ s1)) as [rest0|] eqn:E.
        -- destruct (Nat.le_gt_cases
                       (length (c :: pre ++ s1) - length rest0 - 1)
                       (length pre)) as [Hle|Hgt].
           ++ destruct (IH (S pos) _ (Some c) pre s1 rest eq_refl Hle Hm)
                as (a & b & Hin & Ha & Hb).
              exists a, b; split; [right; exact Hin|]. lia.
           ++ eexists _, _; split; [left; reflexivity|]. simpl in *. lia.
        -- destruct (IH (S pos) 0 (Some c) pre s1 rest eq_refl
                       (Nat.le_0_l _) Hm) as (a & b & Hin & Ha & Hb).
           exists a, b; split; [exact Hin|]. lia.
      * destruct (IH (S pos) n (Some c) pre s1 rest eq_refl
                     (proj2 (Nat.succ_le_mono _ _) Hk) Hm)
          as (a & b & Hin & Ha & Hb).
        exists a, b; split; [exact Hin|]. lia.
Qed.

(** A whole-word occurrence of the keyword that has a dot after it lies in
    a span: in the one that starts there, or in an earlier one that runs
    over it. *)
Lemma terminated_keyword_covered : forall t p kw mid post,
    keyword_at t p kw (mid ++ Char.dot :: post) ->
    forallb Char.not_dot mid = true ->
    exists a b, In (a, b) (statements t) /\ a <= p < b.
Proof.
  intros t p kw mid post (pre & -> & Hl & Hk & Hb & Ha) Hmid.
  destruct (keyword_is_word _ Hk) as [Hne Hw].
  assert (D : den STMT_RE (advance None pre) (kw ++ mid ++ Char.dot :: post)
                (Some Char.dot) post).
  { apply den_STMT_RE. exists kw, mid. repeat split; auto.
    - unfold word_boundary. now rewrite Hb, word_after_run.
    - unfold word_boundary. now rewrite Ha, word_before_run. }
  apply match_at_complete in D as [rest Hm].
  destruct (finditer_from_cover STMT_RE _ 0 0 None pre _ rest eq_refl
              (Nat.le_0_l _) Hm) as (a & b & Hin & Hle & Hlt).
  exists a, b. split; [exact Hin|]. simpl in *. subst p. split; [lia|].
  destruct Hlt as [Hlt|Heq]; [lia|].
  apply extracted_is_span in Hin. destruct Hin as (? & ? & ? & _ & _ & E).
  simpl in E. lia.
Qed.

(** The raw text of a span: the keyword, the text up to the dot, the dot. *)
Lemma group0_span : forall t m,
    statement_span t m ->
    exists kw mid,
      group0 t m = kw ++ mid ++ [Char.dot]
      /\ same_word "TRANSLATE" kw /\ forallb Char.not_dot mid = true.
Proof.
  intros t [a b] (kw & mid & post & (pre & -> & Hl & Hk & _) & Hmid & Hb).
  simpl in *. exists kw, mid. repeat split; auto.
  unfold group0; simpl. subst a b.
  rewrite skipn_app, Nat.sub_diag, skipn_all; simpl.
  replace (length pre + length kw + length mid + 1 - length pre)
    with (length (kw ++ mid ++ [Char.dot]))
    by (rewrite !length_app; simpl; lia).
  replace (kw ++ mid ++ Char.dot :: post)
    with ((kw ++ mid ++ [Char.dot]) ++ post)
    by (rewrite <- !app_assoc; reflexivity).
  rewrite firstn_app, Nat.sub_diag, firstn_all; simpl. apply app_nil_r.
Qed.

Lemma lstrip_keeps_last : forall l c,
    Char.is_space c = false -> lstrip (l ++ [c]) <> [].
Proof.
  induction l as [|x l IH]; intros c Hc; simpl.
  - rewrite Hc. discriminate.
  - destruct (Char.is_space x); [auto|discriminate].
Qed.

(** A text that begins with a character that is neither whitespace, nor a
    star, nor a double quote is not entirely commented. *)
Lemma code_first_not_commented : forall c s,
    Char.is_space c = false -> c <> Char.star -> c <> Char.dquote ->
    is_entirely_commented (c :: s) = false.
Proof.
  intros c s Hs Hstar Hq.
  apply Ascii.eqb_neq in Hstar, Hq.
  unfold is_entirely_commented, cleaned_stmt, strip_inline_quotes,
    strip_full_line_star_comments, sub_empty.
  assert (E1 : match_at STAR_RE None (c :: s) = None)
    by (unfold match_at, STAR_RE; simpl; rewrite Hs; simpl; now rewrite Hstar).
  cbn [sub_from]. rewrite E1.
  assert (E2 : forall s', match_at INLINE_RE None (c :: s') = None)
    by (intro; unfold match_at, INLINE_RE; simpl; now rewrite Hq).
  cbn [sub_from]. rewrite E2.
  unfold strip. cbn [lstrip]. rewrite Hs. cbn [rev].
  match goal with
  | |- is_empty (rev (lstrip (?l ++ [c]))) = false =>
      pose proof (lstrip_keeps_last l c Hs) as H;
      destruct (lstrip (l ++ [c])) as [|y l'] eqn:E; [congruence|]
  end.
  simpl. destruct (rev l'); reflexivity.
Qed.

(** No span of the extractor is entirely commented: its raw text begins
    with the keyword, which no comment pass removes.  The discard of
    [scan_unit] therefore never applies to an extracted statement. *)
Lemma extracted_not_commented : forall t m,
    In m (statements t) -> is_entirely_commented (group0 t m) = false.
Proof.
  intros t m H. apply extracted_is_span, group0_span in H.
  destruct H as (kw & mid & -> & Hk & _).
  destruct (keyword_is_word _ Hk) as [Hne Hw].
  destruct kw as [|c kw]; [congruence|]. simpl in Hw.
  apply andb_prop in Hw as [Hc _]. simpl.
  apply code_first_not_commented.
  - destruct (Char.is_space c) eqn:E; [|reflexivity].
    apply space_not_word in E. congruence.
  - intros ->. discriminate.
  - intros ->. discriminate.
Qed.

(** A statement on a full-line comment is extracted without its star and is
    reported like any other. *)
Lemma commented_line_reported :
  statements body_commented_line = [(2, 28)]
  /\ kinds (rule118_findings (scan_unit (unit_of body_commented_line)))
     = [OBSOLETE; LEGACY; MISSING].
Proof. split; vm_compute; reflexivity. Qed.

Lemma search_LEGACY_CP_HAS_CODEPAGE : forall stmt,
    search LEGACY_CP stmt = true -> search HAS_CODEPAGE stmt = true.
Proof.
  intros stmt H. apply search_HAS_CODEPAGE.
  apply search_LEGACY_CP in H as [H|H]; eapply legacy_has_codepage; eauto.
Qed.

(** What the code does for C4: a unit with one statement on which
    [HEX_LITERAL] matches and [HAS_CODEPAGE] does not has exactly one finding,
    TranslateNonCharacterRisk (info). *)
Lemma hex_match_single_risk : forall unit m,
    statements (source_of unit) = [m] ->
    search HEX_LITERAL (stmt_of (source_of unit) m) = true ->
    search HAS_CODEPAGE (stmt_of (source_of unit) m) = false ->
    kinds (rule118_findings (scan_unit unit)) = [RISK].
Proof.
  intros unit m Hs Hh Hc. unfold scan_unit; simpl. rewrite Hs. simpl.
  rewrite app_nil_r, scan_match_kept
    by (apply extracted_not_commented; rewrite Hs; left; reflexivity).
  rewrite kinds_classify, Hh, Hc.
  destruct (search LEGACY_CP _) eqn:E; [|reflexivity].
  apply search_LEGACY_CP_HAS_CODEPAGE in E. congruence.
Qed.

(** What the code does for C8: the pass only deletes characters, so it never
    adds a newline. *)
Lemma sub_from_count_le : forall r c s skip prev,
    count_char c (sub_from r skip prev s) <= count_char c s.
Proof.
  intros r c s. unfold count_char.
  induction s as [|x s IH]; intros skip prev; [simpl; auto|].
  assert (Hdrop : forall n, length (filter (Ascii.eqb c)
                                      (sub_from r n (Some x) s))
                            <= length (filter (Ascii.eqb c) (x :: s)))
    by (intro n; specialize (IH n (Some x)); simpl;
        destruct (Ascii.eqb c x); simpl; lia).
  assert (Hkeep : length (filter (Ascii.eqb c)
                            (x :: sub_from r 0 (Some x) s))
                  <= length (filter (Ascii.eqb c) (x :: s)))
    by (specialize (IH 0 (Some x)); simpl;
        destruct (Ascii.eqb c x); simpl; lia).
  cbn [sub_from].
  destruct skip as [|n]; [|apply Hdrop].
  destruct (match_at r prev (x :: s)) as [rest|]; [|apply Hkeep].
  destruct (length (x :: s) - length rest); [apply Hkeep|apply Hdrop].
Qed.

Lemma strip_star_newlines_le : forall s,
    count_char Char.newline (strip_full_line_star_comments s)
    <= count_char Char.newline s.
Proof. intro s. apply sub_from_count_le. Qed.

(** ** The claims *)

(** C1. For every extracted statement that is not discarded and whose
    comment-free text contains the phrase CODE PAGE (letter case apart, any
    whitespace between the two words, at word boundaries), the scan of the
    unit has a finding of type TranslateObsoleteCodepage and severity warning
    for that statement: the finding is among those of the match, carries its
    line and its snippet, and is in the result of the unit. *)
Theorem obsolete_codepage_reported : forall unit m,
    In m (statements (source_of unit)) ->
    is_entirely_commented (group0 (source_of unit) m) = false ->
    contains_phrase "CODE" ["PAGE"%string] (stmt_of (source_of unit) m) ->
    exists f,
      In f (scan_match unit (source_of unit) m)
      /\ In f (rule118_findings (scan_unit unit))
      /\ Finding.issue_type f = "TranslateObsoleteCodepage"%string
      /\ Finding.severity f = "warning"%string
      /\ Finding.line f = line_of_offset (source_of unit) (Z.of_nat (fst m))
      /\ Finding.snippet f
         = snippet_at (source_of unit) (Z.of_nat (fst m)) (Z.of_nat (snd m)).
Proof.
  intros unit m Hm Hc Hp. apply reported_at; auto.
  apply (reports_classify unit (source_of unit) (fst m) (snd m)).
  now apply search_HAS_CODEPAGE.
Qed.

Lemma obsolete_codepage_reported_witness :
  exists f,
    In f (scan_match (unit_of body_plain_codepage) body_plain_codepage (0, 33))
    /\ In f (rule118_findings (scan_unit (unit_of body_plain_codepage)))
    /\ Finding.issue_type f = "TranslateObsoleteCodepage"%string
    /\ Finding.severity f = "warning"%string
    /\ Finding.line f = 1%Z
    /\ Finding.snippet f = body_plain_codepage.
Proof.
  apply (obsolete_codepage_reported (unit_of body_plain_codepage) (0, 33)).
  - vm_compute. auto.
  - vm_compute. reflexivity.
  - apply search_HAS_CODEPAGE. vm_compute. reflexivity.
Defined.

(** C2. For every extracted statement that is not discarded, a finding of
    type TranslateMissingFromTo and severity info is produced for it if and
    only if its comment-free text contains the phrase CODE PAGE and contains
    neither FROM CODE PAGE nor TO CODE PAGE.  In particular a unit whose body
    is the statement with FROM CODE PAGE 'UTF-8' TO CODE PAGE 'UTF-16' has
    one statement and exactly one finding, TranslateObsoleteCodepage
    (warning). *)
Theorem missing_from_to_iff :
  (forall unit m,
      In m (statements (source_of unit)) ->
      is_entirely_commented (group0 (source_of unit) m) = false ->
      (reports (scan_match unit (source_of unit) m)
         "TranslateMissingFromTo" "info"
       <-> contains_phrase "CODE" ["PAGE"%string] (stmt_of (source_of unit) m)
           /\ ~ contains_phrase "FROM" ["CODE"%string; "PAGE"%string]
                  (stmt_of (source_of unit) m)
           /\ ~ contains_phrase "TO" ["CODE"%string; "PAGE"%string]
                  (stmt_of (source_of unit) m)))
  /\ (forall unit,
         Unit.code unit = Some body_from_to ->
         statements (source_of unit) = [(0, 60)]
         /\ kinds (rule118_findings (scan_unit unit))
            = [("TranslateObsoleteCodepage"%string, "warning"%string)]).
Proof.
  split.
  - intros unit m Hm Hc. rewrite scan_match_kept by assumption.
    destruct (reports_classify unit (source_of unit) (fst m) (snd m)
                (stmt_of (source_of unit) m)) as (_ & _ & H & _).
    simpl in H. rewrite H.
    rewrite <- search_HAS_CODEPAGE, <- search_FROM_CP, <- search_TO_CP.
    destruct (search HAS_CODEPAGE _), (search FROM_CP _), (search TO_CP _);
      simpl; intuition congruence.
  - intros unit H. split.
    + unfold source_of. rewrite H. vm_compute. reflexivity.
    + rewrite (scan_unit_code _ _ H). vm_compute. reflexivity.
Qed.

Lemma missing_from_to_iff_witness :
  (reports (scan_match (unit_of body_plain_codepage) body_plain_codepage
              (0, 33)) "TranslateMissingFromTo" "info"
   <-> contains_phrase "CODE" ["PAGE"%string]
         (stmt_of body_plain_codepage (0, 33))
       /\ ~ contains_phrase "FROM" ["CODE"%string; "PAGE"%string]
              (stmt_of body_plain_codepage (0, 33))
       /\ ~ contains_phrase "TO" ["CODE"%string; "PAGE"%string]
              (stmt_of body_plain_codepage (0, 33)))
  /\ (statements body_from_to = [(0, 60)]
      /\ kinds (rule118_findings (scan_unit (unit_of body_from_to)))
         = [("TranslateObsoleteCodepage"%string, "warning"%string)]).
Proof.
  split.
  - apply (proj1 missing_from_to_iff (unit_of body_plain_codepage) (0, 33)).
    + vm_compute. auto.
    + vm_compute. reflexivity.
  - apply (proj2 missing_from_to_iff (unit_of body_from_to)). reflexivity.
Defined.

(** C3. The unit whose body is a comment line followed by
    TRANSLATE lv_x CODE PAGE CP1. has exactly one statement and exactly three
    findings, in the order TranslateObsoleteCodepage, TranslateLegacyCp1Cp2,
    TranslateMissingFromTo.  More generally, every extracted statement that
    is not discarded and whose comment-free text contains CODE PAGE CP1 or
    CODE PAGE CP2 has both a TranslateObsoleteCodepage and a
    TranslateLegacyCp1Cp2 finding. *)
Theorem legacy_cp_reported :
  (forall unit,
      Unit.code unit = Some body_cp1 ->
      statements (source_of unit) = [(10, 39)]
      /\ kinds (rule118_findings (scan_unit unit))
         = [("TranslateObsoleteCodepage"%string, "warning"%string);
            ("TranslateLegacyCp1Cp2"%string, "warning"%string);
            ("TranslateMissingFromTo"%string, "info"%string)])
  /\ (forall unit m,
         In m (statements (source_of unit)) ->
         is_entirely_commented (group0 (source_of unit) m) = false ->
         contains_phrase "CODE" ["PAGE"%string; "CP1"%string]
           (stmt_of (source_of unit) m)
         \/ contains_phrase "CODE" ["PAGE"%string; "CP2"%string]
              (stmt_of (source_of unit) m) ->
         reports (scan_match unit (source_of unit) m)
           "TranslateObsoleteCodepage" "warning"
         /\ reports (scan_match unit (source_of unit) m)
              "TranslateLegacyCp1Cp2" "warning").
Proof.
  split.
  - intros unit H. split.
    + unfold source_of. rewrite H. vm_compute. reflexivity.
    + rewrite (scan_unit_code _ _ H). vm_compute. reflexivity.
  - intros unit m Hm Hc Hp. rewrite scan_match_kept by assumption.
    destruct (reports_classify unit (source_of unit) (fst m) (snd m)
                (stmt_of (source_of unit) m)) as (H1 & H2 & _).
    simpl in H1, H2. rewrite H1, H2. split.
    + apply search_HAS_CODEPAGE.
      destruct Hp as [Hp|Hp]; eapply legacy_has_codepage; eauto.
    + now apply search_LEGACY_CP.
Qed.

Lemma legacy_cp_reported_witness :
  (statements body_cp1 = [(10, 39)]
   /\ kinds (rule118_findings (scan_unit (unit_of body_cp1)))
      = [("TranslateObsoleteCodepage"%string, "warning"%string);
         ("TranslateLegacyCp1Cp2"%string, "warning"%string);
         ("TranslateMissingFromTo"%string, "info"%string)])
  /\ (reports (scan_match (unit_of body_cp1) body_cp1 (10, 39))
        "TranslateObsoleteCodepage" "warning"
      /\ reports (scan_match (unit_of body_cp1) body_cp1 (10, 39))
           "TranslateLegacyCp1Cp2" "warning").
Proof.
  split.
  - apply (proj1 legacy_cp_reported (unit_of body_cp1)). reflexivity.
  - apply (proj2 legacy_cp_reported (unit_of body_cp1) (10, 39)).
    + vm_compute. auto.
    + vm_compute. reflexivity.
    + left. apply search_phrase. vm_compute. reflexivity.
Defined.

(** C4. The claim fails on the code: the unit whose body is
    TRANSLATE lv_a USING X'1A2B'. has one statement, which contains the hex
    literal X'1A2B' and no CODE PAGE phrase, and the scan has no finding at
    all, where the claim has one TranslateNonCharacterRisk finding. *)
Theorem hex_literal_not_reported :
  statements body_hex = [(0, 29)]
  /\ is_entirely_commented (group0 body_hex (0, 29)) = false
  /\ contains_hex_literal (stmt_of body_hex (0, 29))
  /\ ~ contains_phrase "CODE" ["PAGE"%string] (stmt_of body_hex (0, 29))
  /\ rule118_findings (scan_unit (unit_of body_hex)) = [].
Proof.
  split; [vm_compute; reflexivity|].
  split; [vm_compute; reflexivity|].
  split; [|split].
  - exists (txt "TRANSLATE lv_a USING "), (txt "X'1A2B'"), (txt ".").
    split; [vm_compute; reflexivity|].
    exists "X"%char, (txt "1A2B"). repeat split; try discriminate.
  - rewrite <- search_HAS_CODEPAGE. vm_compute. discriminate.
  - vm_compute. reflexivity.
Qed.


(** C6. The spans of the statement extractor: each begins at a whole-word
    occurrence of TRANSLATE, letter case apart, and ends with the first dot
    after it; a span starts after the spans before it and not before they
    end, so the spans do not overlap and come in strictly increasing order
    of start; and no span begins at an occurrence of the keyword that has no
    dot after it. *)
Theorem statement_spans : forall t,
    (forall m, In m (statements t) -> statement_span t m)
    /\ StronglySorted span_before (statements t)
    /\ (forall a kw after,
           keyword_at t a kw after ->
           forallb Char.not_dot after = true ->
           forall b, ~ In (a, b) (statements t)).
Proof.
  intros t. split; [apply extracted_is_span|]. split.
  - apply finditer_from_sorted.
  - intros a kw after (pre & Ht & Hl & Hk & _) Hnd b Hin.
    apply extracted_is_span in Hin.
    destruct Hin as (kw' & mid & post & (pre' & Ht' & Hl' & Hk' & _) & _).
    simpl in Hl'. rewrite Ht in Ht'.
    apply app_same_length in Ht' as [_ Ht']; [|congruence].
    apply app_same_length in Ht' as [_ Ht'].
    + subst after. rewrite forallb_app in Hnd.
      apply andb_prop in Hnd as [_ Hnd]. simpl in Hnd. discriminate.
    + apply same_word_length in Hk, Hk'. congruence.
Qed.

Lemma statement_spans_witness :
  statement_span (txt "translate a. TRANSLATE") (0, 12)
  /\ StronglySorted span_before (statements (txt "translate a. TRANSLATE"))
  /\ ~ In (13, 22) (statements (txt "translate a. TRANSLATE")).
Proof.
  destruct (statement_spans (txt "translate a. TRANSLATE")) as (H1 & H2 & H3).
  split; [|split].
  - apply H1. vm_compute. auto.
  - exact H2.
  - apply (H3 13 (txt "TRANSLATE") []); [|reflexivity].
    exists (txt "translate a. "). repeat split.
Defined.

(** C7. A unit whose body is absent or empty has no statement and no
    finding; and the scan of any unit returns its result, the unit's fields
    and a list of findings: there is no failure. *)
Theorem empty_body_no_findings :
  (forall unit,
      Unit.code unit = None \/ Unit.code unit = Some [] ->
      statements (source_of unit) = []
      /\ rule118_findings (scan_unit unit) = [])
  /\ (forall unit, exists fs,
         scan_unit unit = {| unit_fields := unit; rule118_findings := fs |}).
Proof.
  split.
  - intros unit H. unfold scan_unit, source_of.
    destruct H as [-> | ->]; simpl; split; reflexivity.
  - intros unit. eexists. reflexivity.
Qed.

Lemma empty_body_no_findings_witness :
  (statements (source_of (unit_of [])) = []
   /\ rule118_findings (scan_unit (unit_of [])) = [])
  /\ exists fs,
      scan_unit (unit_of body_cp1)
      = {| unit_fields := unit_of body_cp1; rule118_findings := fs |}.
Proof.
  split.
  - apply (proj1 empty_body_no_findings (unit_of [])). right. reflexivity.
  - apply (proj2 empty_body_no_findings (unit_of body_cp1)).
Defined.

(** C8. The claim fails on the code: in a statement with a blank line before
    a comment line, the pass deletes the line break of the blank line
    together with the comment, so the output has one newline less than the
    input. *)
Theorem star_comment_eats_newline :
  strip_full_line_star_comments body_star_after_blank_line
  = txt "TRANSLATE a" ++ [Char.newline; Char.newline] ++ txt "TO b."
  /\ count_char Char.newline body_star_after_blank_line = 3
  /\ count_char Char.newline
       (strip_full_line_star_comments body_star_after_blank_line) = 2.
Proof. vm_compute. repeat split. Qed.

(** C9. For a text and offsets 0 <= start <= end <= len(text), [snippet_at]
    is the substring over the window from max(0, start-60) to
    min(len(text), end+60) with every newline replaced by a backslash and
    the letter n; the window lies within the text and the snippet has no
    newline. *)
Theorem snippet_at_window : forall t start end_,
    (0 <= start)%Z -> (start <= end_)%Z -> (end_ <= Z.of_nat (length t))%Z ->
    let s := Z.max 0 (start - 60) in
    let e := Z.min (Z.of_nat (length t)) (end_ + 60) in
    snippet_at t start end_
    = escape_newlines (substring t (Z.to_nat s) (Z.to_nat e))
    /\ (0 <= s <= e)%Z /\ (e <= Z.of_nat (length t))%Z
    /\ ~ In Char.newline (snippet_at t start end_).
Proof.
  intros t start end_ H0 H1 H2 s e. split; [|split; [|split]].
  - unfold snippet_at. fold s. fold e. rewrite slice_substring; [auto| |];
      subst s e; lia.
  - subst s e; lia.
  - subst e; lia.
  - apply escape_newlines_no_newline.
Qed.

Lemma snippet_at_window_witness :
  snippet_at body_cp1 10 39
  = txt "* comment" ++ [Char.backslash; "n"%char]
    ++ txt "TRANSLATE lv_x CODE PAGE CP1."
  /\ (0 <= 0 <= 39)%Z /\ (39 <= 39)%Z
  /\ ~ In Char.newline (snippet_at body_cp1 10 39).
Proof.
  apply (snippet_at_window body_cp1 10 39); vm_compute; discriminate.
Defined.

(** C10. For every extracted statement that is not discarded and whose
    comment-free text contains a whole-word identifier beginning, letter case
    apart, with lx_, xstr or xstring, the scan of the unit has a finding of
    type TranslateNonCharacterRisk and severity info for that statement,
    whether or not the statement has a CODE PAGE phrase or a hex literal. *)
Theorem xvar_risk_reported : forall unit m,
    In m (statements (source_of unit)) ->
    is_entirely_commented (group0 (source_of unit) m) = false ->
    contains_xvar (stmt_of (source_of unit) m) ->
    exists f,
      In f (scan_match unit (source_of unit) m)
      /\ In f (rule118_findings (scan_unit unit))
      /\ Finding.issue_type f = "TranslateNonCharacterRisk"%string
      /\ Finding.severity f = "info"%string
      /\ Finding.line f = line_of_offset (source_of unit) (Z.of_nat (fst m))
      /\ Finding.snippet f
         = snippet_at (source_of unit) (Z.of_nat (fst m)) (Z.of_nat (snd m)).
Proof.
  intros unit m Hm Hc Hp. apply reported_at; auto.
  apply (reports_classify unit (source_of unit) (fst m) (snd m)).
  apply search_LIKELY_XVAR in Hp. rewrite Hp. apply orb_true_r.
Qed.

Lemma xvar_risk_reported_witness :
  search HAS_CODEPAGE (stmt_of body_xvar (0, 31)) = false
  /\ search HEX_LITERAL (stmt_of body_xvar (0, 31)) = false
  /\ exists f,
      In f (scan_match (unit_of body_xvar) body_xvar (0, 31))
      /\ In f (rule118_findings (scan_unit (unit_of body_xvar)))
      /\ Finding.issue_type f = "TranslateNonCharacterRisk"%string
      /\ Finding.severity f = "info"%string
      /\ Finding.line f = 1%Z
      /\ Finding.snippet f = body_xvar.
Proof.
  split; [vm_compute; reflexivity|]. split; [vm_compute; reflexivity|].
  apply (xvar_risk_reported (unit_of body_xvar) (0, 31)).
  - vm_compute. auto.
  - vm_compute. reflexivity.
  - apply search_LIKELY_XVAR. vm_compute. reflexivity.
Defined.

(** ** More of the code: the inline comment pass *)

Lemma is_code_newline : forall c,
    Char.is_code 10 c = Ascii.eqb c Char.newline.
Proof.
  intro c. apply Bool.eqb_prop.
  apply ascii_enum
    with (P := fun c => Bool.eqb (Char.is_code 10 c)
                                 (Ascii.eqb c Char.newline)).
  vm_compute; reflexivity.
Qed.

Lemma drop_line_length : forall s, length (drop_line s) <= length s.
Proof.
  induction s as [|c s IH]; simpl; [auto|].
  destruct (Ascii.eqb c Char.newline); simpl; lia.
Qed.

(** From a double quote, [INLINE_RE] matches up to the end of the line. *)
Lemma match_at_INLINE_RE_quote : forall prev s,
    match_at INLINE_RE prev (Char.dquote :: s) = Some (drop_line s).
Proof.
  intros prev s. unfold match_at, INLINE_RE. cbn [pat fold_right run].
  rewrite Ascii.eqb_refl. generalize (Some Char.dquote) as p.
  induction s as [|c s IH]; intro p; [reflexivity|].
  cbn [star_lazy run drop_line orelse].
  unfold Char.not_newline. rewrite is_code_newline.
  destruct (Ascii.eqb c Char.newline) eqn:E; [reflexivity|].
  assert (Hz : at_eos (c :: s) = false)
    by (destruct s; simpl; [rewrite is_code_newline; exact E|reflexivity]).
  rewrite Hz. simpl. apply IH.
Qed.

Lemma match_at_INLINE_RE_other : forall prev c s,
    Ascii.eqb c Char.dquote = false ->
    match_at INLINE_RE prev (c :: s) = None.
Proof.
  intros prev c s H. unfold match_at, INLINE_RE. cbn [pat fold_right run].
  now rewrite H.
Qed.

Lemma sub_from_INLINE_RE : forall s,
    (forall prev, sub_from INLINE_RE 0 prev s = cut_quotes false s)
    /\ (forall prev,
           sub_from INLINE_RE (length s - length (drop_line s)) prev s
           = cut_quotes true s).
Proof.
  induction s as [|c s [IH0 IH1]]; [split; reflexivity|].
  pose proof (drop_line_length s) as Hl.
  split; intro prev; cbn [sub_from cut_quotes drop_line].
  - destruct (Ascii.eqb c Char.newline) eqn:En.
    + rewrite match_at_INLINE_RE_other
        by (apply Ascii.eqb_eq in En; subst c; reflexivity).
      now rewrite IH0.
    + destruct (Ascii.eqb c Char.dquote) eqn:Eq.
      * apply Ascii.eqb_eq in Eq; subst c.
        rewrite match_at_INLINE_RE_quote.
        replace (length (Char.dquote :: s) - length (drop_line s))
          with (S (length s - length (drop_line s))) by (cbn [length]; lia).
        apply IH1.
      * rewrite match_at_INLINE_RE_other by assumption. now rewrite IH0.
  - destruct (Ascii.eqb c Char.newline) eqn:En.
    + rewrite Nat.sub_diag.
      rewrite match_at_INLINE_RE_other
        by (apply Ascii.eqb_eq in En; subst c; reflexivity).
      now rewrite IH0.
    + replace (length (c :: s) - length (drop_line s))
        with (S (length s - length (drop_line s))) by (cbn [length]; lia).
      apply IH1.
Qed.

(** X1. The inline comment pass is the one-pass scanner: on every line it
    leaves out the text from the first double quote to the end of the line,
    and nothing else. *)
Theorem strip_inline_quotes_scanner : forall s,
    strip_inline_quotes s = cut_quotes false s.
Proof. intro s. apply (proj1 (sub_from_INLINE_RE s)). Qed.

Lemma inline_pass_cut : forall s,
    strip_inline_quotes s = cut_quotes false s.
Proof. intro s. apply (proj1 (sub_from_INLINE_RE s)). Qed.

Lemma cut_quotes_no_quote : forall s b, ~ In Char.dquote (cut_quotes b s).
Proof.
  induction s as [|c s IH]; intros b; simpl; [auto|].
  destruct (Ascii.eqb c Char.newline) eqn:En.
  - intros [H|H]; [|eapply IH; eauto].
    subst c. discriminate En.
  - destruct b; [apply IH|].
    destruct (Ascii.eqb c Char.dquote) eqn:Eq; [apply IH|].
    intros [H|H]; [|eapply IH; eauto].
    subst c. now rewrite Ascii.eqb_refl in Eq.
Qed.

Lemma count_char_cons : forall x c s,
    count_char x (c :: s)
    = (if Ascii.eqb c x then 1 else 0) + count_char x s.
Proof.
  intros x c s. unfold count_char. cbn [filter].
  rewrite (Ascii.eqb_sym x c). now destruct (Ascii.eqb c x).
Qed.

Lemma cut_quotes_newlines : forall s b,
    count_char Char.newline (cut_quotes b s) = count_char Char.newline s.
Proof.
  induction s as [|c s IH]; intros b; cbn [cut_quotes]; [auto|].
  rewrite count_char_cons.
  destruct (Ascii.eqb c Char.newline) eqn:En.
  - now rewrite count_char_cons, En, IH.
  - destruct b; [apply IH|].
    destruct (Ascii.eqb c Char.dquote); [apply IH|].
    now rewrite count_char_cons, En, IH.
Qed.

Lemma cut_quotes_again : forall s b,
    cut_quotes false (cut_quotes b s) = cut_quotes b s.
Proof.
  induction s as [|c s IH]; intros b; simpl; [auto|].
  destruct (Ascii.eqb c Char.newline) eqn:En.
  - simpl. rewrite En. now rewrite IH.
  - destruct b; [apply IH|].
    destruct (Ascii.eqb c Char.dquote) eqn:Eq; [apply IH|].
    simpl. rewrite En, Eq. now rewrite IH.
Qed.

(** X2. The inline comment pass leaves no double quote in its result, keeps
    every newline, and has nothing left to do on its own result. *)
Theorem strip_inline_quotes_result : forall s,
    ~ In Char.dquote (strip_inline_quotes s)
    /\ count_char Char.newline (strip_inline_quotes s)
       = count_char Char.newline s
    /\ strip_inline_quotes (strip_inline_quotes s) = strip_inline_quotes s.
Proof.
  intro s. rewrite !inline_pass_cut.
  split; [apply cut_quotes_no_quote|]. split.
  - apply cut_quotes_newlines.
  - apply cut_quotes_again.
Qed.

(** ** More of the code: the full-line comment pass *)

Lemma space_not_star : forall c,
    Char.is_space c = true -> Ascii.eqb c Char.star = false.
Proof.
  intros c H.
  assert (E : implb (Char.is_space c) (negb (Ascii.eqb c Char.star)) = true)
    by (apply ascii_enum
          with (P := fun c => implb (Char.is_space c)
                                    (negb (Ascii.eqb c Char.star)));
        vm_compute; reflexivity).
  rewrite H in E. simpl in E. now apply negb_true_iff in E.
Qed.

Lemma lstrip_length : forall s, length (lstrip s) <= length s.
Proof.
  induction s as [|c s IH]; simpl; [auto|].
  destruct (Char.is_space c); simpl; lia.
Qed.

(** After the star, [STAR_RE] matches up to the end of the line. *)
Lemma star_greedy_line : forall s p,
    star_greedy Char.not_newline
      (run (Cat Eol Eps) (fun _ rest => Some rest)) p s
    = Some (drop_line s).
Proof.
  induction s as [|c s IH]; intro p; [reflexivity|].
  cbn [star_greedy drop_line]. unfold Char.not_newline.
  rewrite is_code_newline.
  destruct (Ascii.eqb c Char.newline) eqn:E; cbn [negb].
  - cbn [run at_eol]. now rewrite is_code_newline, E.
  - now rewrite IH.
Qed.

Lemma star_greedy_blank : forall s p,
    star_greedy Char.is_space
      (run (pat [Chr Char.star; Star Char.not_newline; Eol])
         (fun _ rest => Some rest)) p s
    = match lstrip s with
      | c :: rest =>
          if Ascii.eqb c Char.star then Some (drop_line rest) else None
      | [] => None
      end.
Proof.
  induction s as [|c s IH]; intro p; [reflexivity|].
  cbn [star_greedy lstrip].
  destruct (Char.is_space c) eqn:E.
  - rewrite IH. cbn [pat fold_right run].
    rewrite (space_not_star _ E).
    now destruct (lstrip s) as [|x rest]; [|destruct (Ascii.eqb x Char.star)].
  - cbn [pat fold_right run].
    destruct (Ascii.eqb c Char.star); [apply star_greedy_line|reflexivity].
Qed.

(** A match of [STAR_RE] starts at the start of a line, runs over the
    whitespace before a star, and ends with the line of the star. *)
Lemma match_at_STAR_RE : forall prev s,
    match_at STAR_RE prev s
    = if at_bol prev
      then match lstrip s with
           | c :: rest =>
               if Ascii.eqb c Char.star then Some (drop_line rest) else None
           | [] => None
           end
      else None.
Proof.
  intros prev s. unfold match_at, STAR_RE.
  change (pat [Bol; Star Char.is_space; Chr Char.star;
               Star Char.not_newline; Eol])
    with (Cat Bol (Cat (Star Char.is_space)
                       (pat [Chr Char.star; Star Char.not_newline; Eol]))).
  cbn [run]. destruct (at_bol prev); [apply star_greedy_blank|reflexivity].
Qed.

Lemma sub_from_STAR_RE : forall s,
    (forall prev, sub_from STAR_RE 0 prev s = cut_stars (Code (at_bol prev)) s)
    /\ (forall prev,
           at_bol prev = false ->
           sub_from STAR_RE (length s - length (drop_line s)) prev s
           = cut_stars Comment s)
    /\ (forall prev rest,
           lstrip s = Char.star :: rest ->
           sub_from STAR_RE (length s - length (drop_line rest)) prev s
           = cut_stars Blank s).
Proof.
  induction s as [|c s (IH0 & IH1 & IH2)];
    [repeat split; intros; reflexivity|].
  pose proof (drop_line_length s) as Hl.
  assert (Hbol : at_bol (Some c) = Ascii.eqb c Char.newline)
    by apply is_code_newline.
  assert (Hcomment : forall n,
             Ascii.eqb c Char.star = true ->
             n = length s - length (drop_line s) ->
             sub_from STAR_RE n (Some c) s = cut_stars Comment s).
  { intros n Hc ->. apply IH1. rewrite Hbol.
    apply Ascii.eqb_eq in Hc; subst c. reflexivity. }
  split; [|split].
  - intro prev. cbn [sub_from cut_stars]. rewrite match_at_STAR_RE.
    destruct (at_bol prev); cbn [andb]; [|now rewrite IH0, Hbol].
    cbn [lstrip]. destruct (Char.is_space c) eqn:Es.
    + rewrite (space_not_star _ Es).
      destruct (lstrip s) as [|x rest] eqn:El; cbn [starts_with_star];
        [now rewrite IH0, Hbol|].
      destruct (Ascii.eqb x Char.star) eqn:Ex; [|now rewrite IH0, Hbol].
      apply Ascii.eqb_eq in Ex; subst x.
      pose proof (lstrip_length s) as Hs. rewrite El in Hs.
      pose proof (drop_line_length rest) as Hr. simpl in Hs.
      replace (length (c :: s) - length (drop_line rest))
        with (S (length s - length (drop_line rest)))
        by (cbn [length]; lia).
      now apply IH2.
    + cbn [starts_with_star].
      destruct (Ascii.eqb c Char.star) eqn:Ec; [|now rewrite IH0, Hbol].
      replace (length (c :: s) - length (drop_line s))
        with (S (length s - length (drop_line s)))
        by (cbn [length]; lia).
      now apply Hcomment.
  - intros prev Hp. cbn [drop_line cut_stars].
    destruct (Ascii.eqb c Char.newline) eqn:En.
    + rewrite Nat.sub_diag. cbn [sub_from].
      rewrite match_at_STAR_RE, Hp. now rewrite IH0, Hbol.
    + replace (length (c :: s) - length (drop_line s))
        with (S (length s - length (drop_line s)))
        by (cbn [length]; lia).
      cbn [sub_from]. apply IH1. exact Hbol.
  - intros prev rest Hr. cbn [lstrip] in Hr. cbn [cut_stars].
    destruct (Char.is_space c) eqn:Es.
    + rewrite (space_not_star _ Es).
      pose proof (lstrip_length s) as Hs. rewrite Hr in Hs.
      pose proof (drop_line_length rest) as Hd. simpl in Hs.
      replace (length (c :: s) - length (drop_line rest))
        with (S (length s - length (drop_line rest)))
        by (cbn [length]; lia).
      cbn [sub_from]. now apply IH2.
    + inversion Hr; subst c rest. rewrite Ascii.eqb_refl.
      replace (length (Char.star :: s) - length (drop_line s))
        with (S (length s - length (drop_line s)))
        by (cbn [length]; lia).
      cbn [sub_from]. now apply Hcomment.
Qed.

Lemma star_pass_cut : forall s,
    strip_full_line_star_comments s = cut_stars (Code true) s.
Proof. intro s. apply (proj1 (sub_from_STAR_RE s) None). Qed.

(** X3. The full-line comment pass is the one-pass scanner: at the start of
    a line whose first character that is not whitespace, from there on and
    across line breaks, is a star, it leaves out everything up to the end of
    the star's line, and it keeps every other character. *)
Theorem strip_full_line_star_comments_scanner : forall s,
    strip_full_line_star_comments s = cut_stars (Code true) s.
Proof. intro s. apply (proj1 (sub_from_STAR_RE s) None). Qed.

(** ** More of the code: the comment-free statement *)

Lemma subseq_trans : forall (A : Type) (s t u : list A),
    subseq u t -> subseq t s -> subseq u s.
Proof.
  intros A s t u Hut Hts. revert u Hut.
  induction Hts as [|c t s Hts IH|c t s Hts IH]; intros u Hut.
  - exact Hut.
  - constructor. now apply IH.
  - inversion Hut; subst.
    + constructor. now apply IH.
    + apply subseq_keep. now apply IH.
Qed.

(** [re.sub] with an empty replacement only leaves characters out. *)
Lemma sub_from_subseq : forall r s skip prev,
    subseq (sub_from r skip prev s) s.
Proof.
  intros r s. induction s as [|c s IH]; intros skip prev; cbn [sub_from].
  - constructor.
  - destruct skip as [|n]; [|apply subseq_drop, IH].
    destruct (match_at r prev (c :: s)) as [rest|];
      [|apply subseq_keep, IH].
    destruct (length (c :: s) - length rest);
      [apply subseq_keep, IH|apply subseq_drop, IH].
Qed.

Lemma cut_quotes_clean : forall s,
    ~ In Char.dquote s -> cut_quotes false s = s.
Proof.
  induction s as [|c s IH]; intro H; cbn [cut_quotes]; [reflexivity|].
  assert (Hc : Ascii.eqb c Char.dquote = false)
    by (apply Ascii.eqb_neq; intros ->; apply H; left; reflexivity).
  rewrite Hc, IH by (intro; apply H; right; assumption).
  now destruct (Ascii.eqb c Char.newline).
Qed.

Lemma lstrip_no_star : forall s,
    ~ In Char.star s -> starts_with_star (lstrip s) = false.
Proof.
  induction s as [|c s IH]; intro H; cbn [lstrip]; [reflexivity|].
  destruct (Char.is_space c).
  - apply IH. intro; apply H; right; assumption.
  - apply Ascii.eqb_neq. intros ->. apply H. left; reflexivity.
Qed.

Lemma cut_stars_clean : forall s b,
    ~ In Char.star s -> cut_stars (Code b) s = s.
Proof.
  induction s as [|c s IH]; intros b H; cbn [cut_stars]; [reflexivity|].
  rewrite (lstrip_no_star _ H), andb_false_r.
  now rewrite IH by (intro; apply H; right; assumption).
Qed.

(** X4. The comment-free statement is the raw statement with some characters
    left out and the others in order; it has no double quote; and a statement
    with no star and no double quote is returned as it is. *)
Theorem cleaned_stmt_only_deletes : forall stmt,
    subseq (cleaned_stmt stmt) stmt
    /\ ~ In Char.dquote (cleaned_stmt stmt)
    /\ (~ In Char.star stmt -> ~ In Char.dquote stmt ->
        cleaned_stmt stmt = stmt).
Proof.
  intro stmt. unfold cleaned_stmt. split; [|split].
  - eapply subseq_trans; apply sub_from_subseq.
  - rewrite inline_pass_cut. apply cut_quotes_no_quote.
  - intros Hs Hq. rewrite star_pass_cut, cut_stars_clean by assumption.
    rewrite inline_pass_cut. now apply cut_quotes_clean.
Qed.

Lemma cleaned_stmt_only_deletes_witness :
  subseq (cleaned_stmt body_star_after_blank_line) body_star_after_blank_line
  /\ ~ In Char.dquote (cleaned_stmt body_star_after_blank_line)
  /\ cleaned_stmt body_plain_codepage = body_plain_codepage.
Proof.
  destruct (cleaned_stmt_only_deletes body_star_after_blank_line)
    as (H1 & H2 & _).
  destruct (cleaned_stmt_only_deletes body_plain_codepage) as (_ & _ & H3).
  split; [exact H1|]. split; [exact H2|].
  apply H3; vm_compute; intuition discriminate.
Defined.

Lemma lstrip_nil : forall t,
    lstrip t = [] <-> forallb Char.is_space t = true.
Proof.
  induction t as [|c t IH]; simpl; [tauto|].
  destruct (Char.is_space c); simpl; [exact IH|].
  split; discriminate.
Qed.

Lemma lstrip_head : forall t c t',
    lstrip t = c :: t' -> Char.is_space c = false.
Proof.
  induction t as [|x t IH]; intros c t' H; simpl in H; [discriminate|].
  destruct (Char.is_space x) eqn:E; [eauto|]. now inversion H; subst.
Qed.

Lemma strip_nil : forall t,
    strip t = [] <-> forallb Char.is_space t = true.
Proof.
  intro t. unfold strip. rewrite <- lstrip_nil. split.
  - intro H.
    assert (H' : lstrip (rev (lstrip t)) = [])
      by (destruct (lstrip (rev (lstrip t))); [reflexivity|];
          simpl in H; now apply app_eq_nil in H as [_ H]).
    destruct (lstrip t) as [|c t'] eqn:E; [reflexivity|].
    apply lstrip_head in E. apply lstrip_nil in H'.
    rewrite forallb_forall in H'.
    rewrite (H' c) in E; [discriminate|].
    apply in_rev. rewrite rev_involutive. left; reflexivity.
  - intros ->. reflexivity.
Qed.

(** X5. A statement is entirely commented exactly when every character of
    its comment-free text is whitespace. *)
Theorem is_entirely_commented_spaces : forall stmt,
    is_entirely_commented stmt = forallb Char.is_space (cleaned_stmt stmt).
Proof.
  intro stmt. unfold is_entirely_commented.
  destruct (forallb Char.is_space (cleaned_stmt stmt)) eqn:E.
  - apply strip_nil in E. now rewrite E.
  - destruct (strip (cleaned_stmt stmt)) eqn:Es; [|reflexivity].
    apply strip_nil in Es. congruence.
Qed.

(** ** More of the code: the extractor and the scan of a unit *)

Lemma span_bounds : forall t m,
    In m (statements t) -> fst m + 10 <= snd m /\ snd m <= length t.
Proof.
  intros t m H. apply extracted_is_span in H.
  destruct H as (kw & mid & post & (pre & -> & Hl & Hk & _) & _ & ->).
  apply same_word_length in Hk. rewrite !length_app. simpl in *. lia.
Qed.

Lemma flat_map_same : forall (A B : Type) (f g : A -> list B) l,
    (forall a, In a l -> f a = g a) -> flat_map f l = flat_map g l.
Proof.
  intros A B f g l. induction l as [|a l IH]; intro H; simpl; [reflexivity|].
  rewrite (H a) by (left; reflexivity).
  now rewrite IH by (intros; apply H; right; assumption).
Qed.

Lemma findings_classify : forall unit,
    rule118_findings (scan_unit unit)
    = flat_map (fun m => classify unit (source_of unit) (fst m) (snd m)
                           (stmt_of (source_of unit) m))
        (statements (source_of unit)).
Proof.
  intro unit. unfold scan_unit; simpl. apply flat_map_same.
  intros m Hm. apply scan_match_kept. now apply extracted_not_commented.
Qed.

(** X6. The scan never discards a statement it has extracted: the test for
    an entirely commented statement is false on every match of the statement
    pattern, whose text begins with the keyword, so the findings of a unit
    are those of the four checks on every match. *)
Theorem scan_unit_never_discards : forall unit,
    (forall m, In m (statements (source_of unit)) ->
               is_entirely_commented (group0 (source_of unit) m) = false)
    /\ rule118_findings (scan_unit unit)
       = flat_map (fun m => classify unit (source_of unit) (fst m) (snd m)
                              (stmt_of (source_of unit) m))
           (statements (source_of unit)).
Proof.
  intro unit. split; [|apply findings_classify].
  intros m Hm. now apply extracted_not_commented.
Qed.

Lemma scan_unit_never_discards_witness :
  is_entirely_commented (group0 body_commented_line (2, 28)) = false
  /\ rule118_findings (scan_unit (unit_of body_commented_line))
     = classify (unit_of body_commented_line) body_commented_line 2 28
         (stmt_of body_commented_line (2, 28)).
Proof.
  destruct (scan_unit_never_discards (unit_of body_commented_line))
    as [H1 H2].
  split.
  - apply (H1 (2, 28)). vm_compute. auto.
  - rewrite H2. vm_compute. reflexivity.
Defined.

Lemma is_code_dot : forall c, Char.not_dot c = negb (Ascii.eqb c Char.dot).
Proof.
  intro c. apply Bool.eqb_prop.
  apply ascii_enum
    with (P := fun c => Bool.eqb (Char.not_dot c)
                                 (negb (Ascii.eqb c Char.dot))).
  vm_compute; reflexivity.
Qed.

Lemma first_dot : forall s,
    In Char.dot s ->
    exists mid post, s = mid ++ Char.dot :: post
                     /\ forallb Char.not_dot mid = true.
Proof.
  induction s as [|c s IH]; intro H; [contradiction|].
  destruct (Ascii.eqb c Char.dot) eqn:E.
  - apply Ascii.eqb_eq in E; subst c. exists [], s; auto.
  - destruct H as [H|H]; [subst c; now rewrite Ascii.eqb_refl in E|].
    destruct (IH H) as (mid & post & -> & Hm).
    exists (c :: mid), post; split; [reflexivity|].
    simpl. now rewrite is_code_dot, E.
Qed.

(** X7. A text has no statement exactly when no whole-word occurrence of the
    keyword has a dot anywhere after it. *)
Theorem no_statement_iff : forall t,
    statements t = [] <->
    (forall p kw after, keyword_at t p kw after -> ~ In Char.dot after).
Proof.
  intro t. split.
  - intros He p kw after Hk Hd.
    apply first_dot in Hd as (mid & post & -> & Hm).
    destruct (terminated_keyword_covered _ _ _ _ _ Hk Hm) as (a & b & Hin & _).
    rewrite He in Hin. contradiction.
  - intro H. destruct (statements t) as [|m l] eqn:E; [reflexivity|].
    assert (Hm : In m (statements t)) by (rewrite E; left; reflexivity).
    apply extracted_is_span in Hm. destruct Hm as (kw & mid & post & Hk & _).
    exfalso. apply (H _ _ _ Hk). apply in_or_app. right. left. reflexivity.
Qed.

(** X8. The raw text of every extracted statement lies within the text, is
    at least ten characters long, begins with the keyword and ends with its
    only dot. *)
Theorem statement_text_shape : forall t m,
    In m (statements t) ->
    fst m + 10 <= snd m /\ snd m <= length t
    /\ length (group0 t m) = snd m - fst m
    /\ exists kw mid,
        group0 t m = kw ++ mid ++ [Char.dot]
        /\ same_word "TRANSLATE" kw
        /\ ~ In Char.dot mid.
Proof.
  intros t m H. destruct (span_bounds _ _ H) as [H1 H2].
  split; [exact H1|]. split; [exact H2|]. split.
  - unfold group0. rewrite length_firstn, length_skipn. lia.
  - apply extracted_is_span, group0_span in H.
    destruct H as (kw & mid & E & Hk & Hm).
    exists kw, mid. split; [exact E|]. split; [exact Hk|].
    intro Hd. rewrite forallb_forall in Hm. specialize (Hm _ Hd).
    discriminate Hm.
Qed.

Lemma statement_text_shape_witness :
  10 + 10 <= 39 /\ 39 <= 39
  /\ length (group0 body_cp1 (10, 39)) = 29
  /\ exists kw mid,
      group0 body_cp1 (10, 39) = kw ++ mid ++ [Char.dot]
      /\ same_word "TRANSLATE" kw
      /\ ~ In Char.dot mid.
Proof.
  apply (statement_text_shape body_cp1 (10, 39)). vm_compute. auto.
Defined.

(** ** More of the code: line numbers and snippets *)

Lemma slice_from_start : forall t off,
    slice t 0 off
    = firstn (Z.to_nat (clamp_index (Z.of_nat (length t)) off)) t.
Proof.
  intros t off. unfold slice.
  replace (clamp_index (Z.of_nat (length t)) 0) with 0%Z
    by (unfold clamp_index; simpl; lia).
  now rewrite Z.sub_0_r.
Qed.

Lemma count_char_app : forall c s1 s2,
    count_char c (s1 ++ s2) = count_char c s1 + count_char c s2.
Proof.
  intros c s1 s2. unfold count_char. now rewrite filter_app, length_app.
Qed.

Lemma count_char_firstn : forall c t a b,
    a <= b -> count_char c (firstn a t) <= count_char c (firstn b t).
Proof.
  intros c t a b H.
  replace (firstn a t) with (firstn a (firstn b t))
    by (rewrite firstn_firstn; f_equal; lia).
  rewrite <- (firstn_skipn a (firstn b t)) at 2.
  rewrite count_char_app. lia.
Qed.

Lemma count_char_firstn_all : forall c t a,
    count_char c (firstn a t) <= count_char c t.
Proof.
  intros c t a. rewrite <- (firstn_skipn a t) at 2.
  rewrite count_char_app. lia.
Qed.

Lemma line_of_offset_nat : forall t a,
    line_of_offset t (Z.of_nat a)
    = (1 + Z.of_nat (count_char Char.newline (firstn a t)))%Z.
Proof.
  intros t a. unfold line_of_offset. rewrite slice_from_start.
  unfold clamp_index.
  destruct (Z.ltb_spec (Z.of_nat a) 0) as [?|_]; [lia|].
  destruct (Nat.le_gt_cases a (length t)) as [Hle|Hgt].
  - rewrite Z.min_l, Nat2Z.id by lia. lia.
  - rewrite Z.min_r, Nat2Z.id by lia.
    rewrite firstn_all, firstn_all2 by lia. lia.
Qed.

Lemma line_of_offset_mono : forall t a b,
    a <= b ->
    (line_of_offset t (Z.of_nat a) <= line_of_offset t (Z.of_nat b))%Z.
Proof.
  intros t a b H. rewrite !line_of_offset_nat.
  pose proof (count_char_firstn Char.newline t a b H). lia.
Qed.

(** X9. [line_of_offset] at the end of a prefix of the text is one more than
    the number of newlines of that prefix; for every offset, negative or past
    the end, it lies between 1 and one more than the number of newlines of
    the text; and it does not decrease when a non-negative offset grows. *)
Theorem line_of_offset_counts :
  (forall pre rest,
      line_of_offset (pre ++ rest) (Z.of_nat (length pre))
      = (1 + Z.of_nat (count_char Char.newline pre))%Z)
  /\ (forall t off,
         (1 <= line_of_offset t off
          <= 1 + Z.of_nat (count_char Char.newline t))%Z)
  /\ (forall t a b,
         (0 <= a)%Z -> (a <= b)%Z ->
         (line_of_offset t a <= line_of_offset t b)%Z).
Proof.
  split; [|split].
  - intros pre rest. rewrite line_of_offset_nat.
    now rewrite firstn_app, Nat.sub_diag, firstn_all, app_nil_r.
  - intros t off. unfold line_of_offset. rewrite slice_from_start.
    pose proof (count_char_firstn_all Char.newline t
                  (Z.to_nat (clamp_index (Z.of_nat (length t)) off))).
    lia.
  - intros t a b Ha Hab.
    rewrite <- (Z2Nat.id a), <- (Z2Nat.id b) by lia.
    apply line_of_offset_mono. lia.
Qed.

Lemma line_of_offset_counts_witness :
  line_of_offset body_cp1 10 = 2%Z
  /\ (1 <= line_of_offset body_cp1 (-5) <= 2)%Z
  /\ (line_of_offset body_cp1 3 <= line_of_offset body_cp1 500)%Z.
Proof.
  destruct line_of_offset_counts as (H1 & H2 & H3). split; [|split].
  - apply (H1 (txt "* comment" ++ [Char.newline])
              (txt "TRANSLATE lv_x CODE PAGE CP1.")).
  - apply (H2 body_cp1 (-5)%Z).
  - apply (H3 body_cp1 3%Z 500%Z); lia.
Defined.

Lemma scan_match_located : forall unit src m f,
    In f (scan_match unit src m) ->
    Finding.line f = line_of_offset src (Z.of_nat (fst m))
    /\ Finding.snippet f
       = snippet_at src (Z.of_nat (fst m)) (Z.of_nat (snd m)).
Proof.
  intros unit src [a b] f H. unfold scan_match in H.
  destruct (is_entirely_commented (group0 src (a, b))); [contradiction|].
  eapply classify_located; eauto.
Qed.

Lemma StronglySorted_app : forall (A : Type) (R : A -> A -> Prop) l1 l2,
    StronglySorted R l1 -> StronglySorted R l2 ->
    (forall x y, In x l1 -> In y l2 -> R x y) ->
    StronglySorted R (l1 ++ l2).
Proof.
  intros A R l1 l2 H1 H2 H. induction H1 as [|x l1 H1 IH Hx]; simpl; [auto|].
  constructor.
  - apply IH. intros; apply H; [right|]; assumption.
  - apply Forall_app. split; [exact Hx|].
    apply Forall_forall. intros y Hy. apply H; [left; reflexivity|exact Hy].
Qed.

Lemma StronglySorted_same : forall (l : list Z) (z : Z),
    (forall x, In x l -> x = z) -> StronglySorted Z.le l.
Proof.
  induction l as [|x l IH]; intros z H; constructor.
  - apply (IH z). intros; apply H; right; assumption.
  - apply Forall_forall. intros y Hy.
    rewrite (H x), (H y) by (simpl; auto). lia.
Qed.

Lemma lines_sorted : forall unit src l,
    StronglySorted span_before l ->
    StronglySorted Z.le
      (map Finding.line (flat_map (scan_match unit src) l)).
Proof.
  intros unit src l H. induction H as [|m l H IH Hm]; simpl; [constructor|].
  rewrite map_app. apply StronglySorted_app.
  - apply (StronglySorted_same _ (line_of_offset src (Z.of_nat (fst m)))).
    intros x Hx. apply in_map_iff in Hx as (f & <- & Hf).
    now apply scan_match_located in Hf.
  - exact IH.
  - intros x y Hx Hy.
    apply in_map_iff in Hx as (f & <- & Hf).
    apply in_map_iff in Hy as (g & <- & Hg).
    apply in_flat_map in Hg as (m' & Hm' & Hg).
    apply scan_match_located in Hf as [-> _].
    apply scan_match_located in Hg as [-> _].
    rewrite Forall_forall in Hm. destruct (Hm _ Hm') as [Hlt _].
    apply line_of_offset_mono. lia.
Qed.

(** X10. Every finding carries the line of its statement, one more than the
    number of newlines of the unit's body before the keyword, and the
    findings of a unit come in non-decreasing order of line. *)
Theorem findings_in_line_order : forall unit,
    (forall m f,
        In m (statements (source_of unit)) ->
        In f (scan_match unit (source_of unit) m) ->
        In f (rule118_findings (scan_unit unit))
        /\ exists pre rest,
            source_of unit = pre ++ rest
            /\ length pre = fst m
            /\ Finding.line f
               = (1 + Z.of_nat (count_char Char.newline pre))%Z)
    /\ StronglySorted Z.le
         (map Finding.line (rule118_findings (scan_unit unit))).
Proof.
  intro unit. split.
  - intros m f Hm Hf. split; [eapply scan_match_in_unit; eauto|].
    destruct (span_bounds _ _ Hm) as [H1 H2].
    apply scan_match_located in Hf as [Hl _].
    exists (firstn (fst m) (source_of unit)),
      (skipn (fst m) (source_of unit)).
    split; [symmetry; apply firstn_skipn|].
    split; [apply firstn_length_le; lia|].
    rewrite Hl. apply line_of_offset_nat.
  - unfold scan_unit; simpl. apply lines_sorted.
    apply finditer_from_sorted.
Qed.

Lemma findings_in_line_order_witness :
  (exists f,
      In f (rule118_findings (scan_unit (unit_of body_cp1)))
      /\ Finding.line f = 2%Z)
  /\ StronglySorted Z.le
       (map Finding.line (rule118_findings (scan_unit (unit_of body_cp1)))).
Proof.
  destruct (findings_in_line_order (unit_of body_cp1)) as [H1 H2].
  split; [|exact H2].
  exists (finding (unit_of body_cp1) body_cp1 10 39
            "TranslateObsoleteCodepage" "warning" msg_obsolete sug_obsolete).
  split; [|reflexivity].
  apply (H1 (10, 39)); vm_compute; auto.
Defined.

(** ** Snippets of findings *)

Lemma skipn_substring : forall (t : text) a b,
    a <= b -> skipn a t = substring t a b ++ skipn b t.
Proof.
  intros t a b H. unfold substring.
  replace (skipn b t) with (skipn (b - a) (skipn a t))
    by (rewrite skipn_skipn; f_equal; lia).
  symmetry. apply firstn_skipn.
Qed.

Lemma substring_length : forall (t : text) a b,
    b <= length t -> length (substring t a b) = b - a.
Proof.
  intros t a b H. unfold substring. rewrite length_firstn, length_skipn. lia.
Qed.

Lemma substring_parts : forall (t : text) s a b e,
    s <= a -> a <= b -> b <= e -> e <= length t ->
    substring t s e = substring t s a ++ substring t a b ++ substring t b e.
Proof.
  intros t s a b e Hsa Hab Hbe He.
  unfold substring at 1.
  rewrite (skipn_substring t s a), (skipn_substring t a b),
    (skipn_substring t b e) by lia.
  rewrite !app_assoc.
  rewrite firstn_app.
  rewrite !length_app, !substring_length by lia.
  replace (e - s - (a - s + (b - a) + (e - b))) with 0 by lia.
  rewrite firstn_all2 by (rewrite !length_app, !substring_length; lia).
  simpl. now rewrite app_nil_r.
Qed.

(** X11. The snippet of a finding is the raw statement with the sixty
    characters of the body before it and the sixty after it, fewer where the
    body starts or ends sooner, all with newlines escaped; it has no
    newline. *)
Theorem snippet_shows_statement : forall unit m f,
    In m (statements (source_of unit)) ->
    In f (scan_match unit (source_of unit) m) ->
    ~ In Char.newline (Finding.snippet f)
    /\ exists p before after q,
        source_of unit
        = p ++ before ++ group0 (source_of unit) m ++ after ++ q
        /\ length (p ++ before) = fst m
        /\ length before = Nat.min 60 (fst m)
        /\ length after = Nat.min 60 (length (source_of unit) - snd m)
        /\ Finding.snippet f
           = escape_newlines
               (before ++ group0 (source_of unit) m ++ after).
Proof.
  intros unit m f Hm Hf. set (src := source_of unit) in *.
  destruct (span_bounds _ _ Hm) as [H1 H2].
  apply scan_match_located in Hf as [_ Hs]. rewrite Hs.
  split; [apply escape_newlines_no_newline|].
  destruct m as [a b]. cbn [fst snd] in *.
  set (s := a - 60). set (e := Nat.min (length src) (b + 60)).
  assert (Hsn : snippet_at src (Z.of_nat a) (Z.of_nat b)
                = escape_newlines (substring src s e)).
  { unfold snippet_at. rewrite slice_substring by lia.
    f_equal. f_equal; subst s e; lia. }
  exists (firstn s src), (substring src s a), (substring src b e),
    (skipn e src).
  assert (Hg : group0 src (a, b) = substring src a b) by reflexivity.
  rewrite Hg. split; [|split; [|split; [|split]]].
  - rewrite <- (skipn_substring src b e) by (subst e; lia).
    rewrite <- (skipn_substring src a b) by lia.
    rewrite <- (skipn_substring src s a) by (subst s; lia).
    symmetry. apply firstn_skipn.
  - rewrite length_app, length_firstn, substring_length by lia.
    subst s; lia.
  - rewrite substring_length by lia. subst s; lia.
  - rewrite substring_length by (subst e; lia). subst e; lia.
  - rewrite Hsn. f_equal. apply substring_parts; subst s e; lia.
Qed.

Lemma snippet_shows_statement_witness :
  ~ In Char.newline
      (snippet_at body_cp1 10 39)
  /\ exists p before after q,
      body_cp1 = p ++ before ++ group0 body_cp1 (10, 39) ++ after ++ q
      /\ length (p ++ before) = 10
      /\ length before = 10
      /\ length after = 0
      /\ snippet_at body_cp1 10 39
         = escape_newlines (before ++ group0 body_cp1 (10, 39) ++ after).
Proof.
  apply (snippet_shows_statement (unit_of body_cp1) (10, 39)
           (finding (unit_of body_cp1) body_cp1 10 39
              "TranslateObsoleteCodepage" "warning" msg_obsolete
              sug_obsolete)); vm_compute; auto.
Defined.

(** ** More of the code: what the findings of a unit are made of *)

Lemma in_findings : forall unit f,
    In f (rule118_findings (scan_unit unit)) ->
    exists m,
      In m (statements (source_of unit))
      /\ In f (classify unit (source_of unit) (fst m) (snd m)
                 (stmt_of (source_of unit) m)).
Proof.
  intros unit f H. rewrite findings_classify in H.
  apply in_flat_map in H as (m & Hm & Hf). eauto.
Qed.

(** X12. Every finding of a unit carries the six identity and location
    fields of the unit unchanged, and its issue type, severity, message and
    suggestion are one of the four fixed combinations. *)
Theorem finding_fields : forall unit f,
    In f (rule118_findings (scan_unit unit)) ->
    Finding.pgm_name f = Unit.pgm_name unit
    /\ Finding.inc_name f = Unit.inc_name unit
    /\ Finding.type f = Unit.type unit
    /\ Finding.name f = Unit.name unit
    /\ Finding.start_line f = Unit.start_line unit
    /\ Finding.end_line f = Unit.end_line unit
    /\ In (Finding.issue_type f, Finding.severity f, Finding.message f,
           Finding.suggestion f) catalogue.
Proof.
  intros unit f H. apply in_findings in H as (m & _ & H).
  unfold classify, when in H.
  repeat (apply in_app_or in H as [H|H]);
    match type of H with
    | In _ (if ?c then _ else _) => destruct c
    end; simpl in H; try contradiction;
    destruct H as [<-|[]]; simpl; repeat split; auto 6.
Qed.

Lemma finding_fields_witness :
  Finding.pgm_name (finding (unit_of body_cp1) body_cp1 10 39
                      "TranslateLegacyCp1Cp2" "warning" msg_legacy sug_legacy)
  = "ZPROG"%string
  /\ In ("TranslateLegacyCp1Cp2"%string, "warning"%string, msg_legacy,
         sug_legacy) catalogue.
Proof.
  destruct (finding_fields (unit_of body_cp1)
              (finding (unit_of body_cp1) body_cp1 10 39
                 "TranslateLegacyCp1Cp2" "warning" msg_legacy sug_legacy))
    as (H1 & _ & _ & _ & _ & _ & H7).
  - vm_compute. auto.
  - split; [exact H1|exact H7].
Defined.

Lemma subseq_flags : forall (A : Type) (x1 x2 x3 x4 : A) (b1 b2 b3 b4 : bool),
    subseq ((if b1 then [x1] else []) ++ (if b2 then [x2] else [])
            ++ (if b3 then [x3] else []) ++ (if b4 then [x4] else []))
      [x1; x2; x3; x4].
Proof.
  intros A x1 x2 x3 x4 b1 b2 b3 b4.
  assert (H4 : subseq (if b4 then [x4] else []) [x4])
    by (destruct b4; repeat constructor).
  assert (H3 : subseq ((if b3 then [x3] else [])
                       ++ (if b4 then [x4] else [])) [x3; x4])
    by (destruct b3; simpl; [apply subseq_keep|apply subseq_drop]; exact H4).
  assert (H2 : subseq ((if b2 then [x2] else []) ++ (if b3 then [x3] else [])
                       ++ (if b4 then [x4] else [])) [x2; x3; x4])
    by (destruct b2; simpl; [apply subseq_keep|apply subseq_drop]; exact H3).
  destruct b1; simpl; [apply subseq_keep|apply subseq_drop]; exact H2.
Qed.

Lemma subseq_length : forall (A : Type) (t s : list A),
    subseq t s -> length t <= length s.
Proof. intros A t s H. induction H; simpl; lia. Qed.

Lemma kinds_scan_match : forall unit src m,
    subseq (kinds (scan_match unit src m)) [OBSOLETE; LEGACY; MISSING; RISK].
Proof.
  intros unit src [a b]. unfold scan_match.
  destruct (is_entirely_commented (group0 src (a, b))).
  - repeat constructor.
  - rewrite kinds_classify. apply subseq_flags.
Qed.

Lemma flat_map_length : forall (A B : Type) (f : A -> list B) n l,
    (forall a, length (f a) <= n) -> length (flat_map f l) <= n * length l.
Proof.
  intros A B f n l H. induction l as [|a l IH]; simpl; [lia|].
  rewrite length_app. specialize (H a). lia.
Qed.

(** X13. The findings of one statement are, in this order and each at most
    once, some of: obsolete option, legacy page, missing direction,
    non-character risk.  So a statement has at most four findings and a unit
    at most four times as many as it has statements. *)
Theorem findings_per_statement : forall unit,
    (forall m,
        subseq (kinds (scan_match unit (source_of unit) m))
          [("TranslateObsoleteCodepage"%string, "warning"%string);
           ("TranslateLegacyCp1Cp2"%string, "warning"%string);
           ("TranslateMissingFromTo"%string, "info"%string);
           ("TranslateNonCharacterRisk"%string, "info"%string)]
        /\ length (scan_match unit (source_of unit) m) <= 4)
    /\ length (rule118_findings (scan_unit unit))
       <= 4 * length (statements (source_of unit)).
Proof.
  intro unit.
  assert (H : forall m, length (scan_match unit (source_of unit) m) <= 4).
  { intro m. pose proof (subseq_length _ _ _ (kinds_scan_match unit
                                                (source_of unit) m)) as H.
    unfold kinds in H. rewrite length_map in H. exact H. }
  split.
  - intro m. split; [apply kinds_scan_match|apply H].
  - unfold scan_unit; cbn [rule118_findings]. now apply flat_map_length.
Qed.

(** X14. A statement is never reported for a legacy page or for a missing
    direction without being reported for the obsolete option as well. *)
Theorem obsolete_accompanies : forall unit src m,
    (reports (scan_match unit src m) "TranslateLegacyCp1Cp2" "warning" ->
     reports (scan_match unit src m) "TranslateObsoleteCodepage" "warning")
    /\ (reports (scan_match unit src m) "TranslateMissingFromTo" "info" ->
        reports (scan_match unit src m) "TranslateObsoleteCodepage"
          "warning").
Proof.
  intros unit src [a b]. unfold scan_match.
  destruct (is_entirely_commented (group0 src (a, b)));
    [split; intros (f & [] & _)|].
  destruct (reports_classify unit src a b (cleaned_stmt (group0 src (a, b))))
    as (H1 & H2 & H3 & _).
  simpl in H1, H2, H3. rewrite H1, H2, H3. split.
  - apply search_LEGACY_CP_HAS_CODEPAGE.
  - intro H. now apply andb_prop in H as [H _].
Qed.

Lemma obsolete_accompanies_witness :
  reports (scan_match (unit_of body_cp1) body_cp1 (10, 39))
    "TranslateObsoleteCodepage" "warning".
Proof.
  apply (proj1 (obsolete_accompanies (unit_of body_cp1) body_cp1 (10, 39))).
  apply reports_kinds. vm_compute. auto.
Defined.

(** ** More of the code: the endpoint *)

Lemma scan_rule_from : forall units acc,
    fold_left scan_rule_step units acc
    = acc ++ filter has_findings (map scan_unit units).
Proof.
  induction units as [|u units IH]; intro acc; simpl.
  - now rewrite app_nil_r.
  - rewrite IH. unfold scan_rule_step, has_findings.
    destruct (truthy (rule118_findings (scan_unit u))); [|reflexivity].
    now rewrite <- app_assoc.
Qed.

Lemma scan_rule_filter : forall units,
    scan_rule units = filter has_findings (map scan_unit units).
Proof. intro units. apply (scan_rule_from units []). Qed.

(** X15. The endpoint returns the scans of the units that have at least one
    finding, in the order of the request; and the answer to a request made
    of two batches is the answers to the two batches, one after the other. *)
Theorem scan_rule_batches :
  (forall units,
      scan_rule units
      = filter (fun res => truthy (rule118_findings res))
          (map scan_unit units))
  /\ (forall units1 units2,
         scan_rule (units1 ++ units2) = scan_rule units1 ++ scan_rule units2).
Proof.
  split.
  - exact scan_rule_filter.
  - intros units1 units2.
    now rewrite !scan_rule_filter, map_app, filter_app.
Qed.

(** ** More of the code: the checks, read both ways *)

Lemma lower_squote : forall c, Char.lower c = Char.squote -> c = Char.squote.
Proof.
  intros c H. apply Ascii.eqb_eq.
  assert (E : implb (Ascii.eqb (Char.lower c) Char.squote)
                (Ascii.eqb c Char.squote) = true)
    by (apply ascii_enum
          with (P := fun c => implb (Ascii.eqb (Char.lower c) Char.squote)
                                    (Ascii.eqb c Char.squote));
        vm_compute; reflexivity).
  rewrite H, Ascii.eqb_refl in E. exact E.
Qed.

Lemma den_HEX_LITERAL : forall prev s p' s',
    den HEX_LITERAL prev s p' s' <->
    exists x ds,
      s = x :: Char.squote :: ds ++ Char.squote :: s'
      /\ Char.lower x = "x"%char
      /\ ds <> [] /\ forallb Char.is_hex ds = true
      /\ word_before prev = false
      /\ word_after s' = true
      /\ p' = Some Char.squote.
Proof.
  intros prev s p' s'. unfold HEX_LITERAL. cbn [den pat fold_right]. split.
  - intros (p0 & s0 & (Hb & -> & ->) & p1 & s1 & D & p2 & s2 & Dp
            & p3 & s3 & (y & -> & Hy & ->) & p4 & s4 & (Hb' & -> & ->)
            & Ep & Es).
    subst p' s3.
    apply den_liti in D as (kw & -> & Hk & ->).
    destruct (proj1 (den_plus Char.is_hex (advance prev kw) s1 p2
                       (y :: s')) Dp) as (ds & -> & Hne & Hds & _).
    unfold Char.eqb_ci in Hy. apply Ascii.eqb_eq in Hy.
    apply lower_squote in Hy; subst y.
    unfold same_word in Hk.
    destruct kw as [|x [|q [|? ?]]]; try discriminate Hk.
    inversion Hk as [[Hx Hq]]. apply lower_squote in Hq; subst q.
    exists x, ds. repeat split; auto.
    unfold word_boundary in Hb. simpl in Hb.
    rewrite <- (lower_word x), Hx in Hb.
    now destruct (word_before prev).
  - intros (x & ds & -> & Hx & Hne & Hds & Hb & Hb' & ->).
    exists prev, (x :: Char.squote :: ds ++ Char.squote :: s'); split.
    { repeat split. unfold word_boundary. simpl.
      now rewrite Hb, <- (lower_word x), Hx. }
    exists (Some Char.squote), (ds ++ Char.squote :: s'); split.
    { apply den_liti. exists [x; Char.squote]. repeat split.
      unfold same_word. simpl. now rewrite Hx. }
    exists (advance (Some Char.squote) ds), (Char.squote :: s'); split.
    { destruct ds as [|d w]; [congruence|]. simpl in Hds.
      apply andb_prop in Hds as [Hd Hw]. exists d, w. auto. }
    exists (Some Char.squote), s'; split.
    { exists Char.squote. repeat split. }
    exists (Some Char.squote), s'; repeat split. exact Hb'.
Qed.

Lemma search_HEX_LITERAL : forall stmt,
    search HEX_LITERAL stmt = true <-> contains_glued_hex_literal stmt.
Proof.
  intro stmt. rewrite search_spec. unfold contains_glued_hex_literal. split.
  - intros (pre & s1 & p' & s' & -> & D).
    apply den_HEX_LITERAL in D
      as (x & ds & -> & Hx & Hne & Hds & Hb & Hb' & _).
    exists pre, (x :: Char.squote :: ds ++ [Char.squote]), s'.
    repeat split; auto.
    + simpl. now rewrite <- app_assoc.
    + exists x, ds. auto.
  - intros (pre & tok & post & -> & (x & ds & -> & Hx & Hne & Hds) & Hb & Hb').
    exists pre, ((x :: Char.squote :: ds ++ [Char.squote]) ++ post),
      (Some Char.squote), post.
    split; [reflexivity|]. apply den_HEX_LITERAL.
    exists x, ds. repeat split; auto.
    simpl. now rewrite <- app_assoc.
Qed.

(** X16. [HEX_LITERAL] finds a match exactly in a statement that has a hex
    literal which starts a word and whose closing quote is directly followed
    by a word character; a literal followed by whitespace, a period or the
    end of the statement is not matched. *)
Theorem hex_literal_pattern : forall stmt,
    search HEX_LITERAL stmt = true <-> contains_glued_hex_literal stmt.
Proof. exact search_HEX_LITERAL. Qed.

(** X17. For an extracted statement the three other checks are exact, as
    the missing-direction check is: the obsolete option is reported exactly
    when the statement contains CODE PAGE, the legacy page exactly when it
    contains CODE PAGE CP1 or CODE PAGE CP2, and the non-character risk
    exactly when it contains a hex literal glued to a following word
    character or an identifier with one of the three prefixes. *)
Theorem checks_are_exact : forall unit m,
    In m (statements (source_of unit)) ->
    (reports (scan_match unit (source_of unit) m)
       "TranslateObsoleteCodepage" "warning"
     <-> contains_phrase "CODE" ["PAGE"%string] (stmt_of (source_of unit) m))
    /\ (reports (scan_match unit (source_of unit) m)
          "TranslateLegacyCp1Cp2" "warning"
        <-> contains_phrase "CODE" ["PAGE"%string; "CP1"%string]
              (stmt_of (source_of unit) m)
            \/ contains_phrase "CODE" ["PAGE"%string; "CP2"%string]
                 (stmt_of (source_of unit) m))
    /\ (reports (scan_match unit (source_of unit) m)
          "TranslateNonCharacterRisk" "info"
        <-> contains_glued_hex_literal (stmt_of (source_of unit) m)
            \/ contains_xvar (stmt_of (source_of unit) m)).
Proof.
  intros unit m Hm.
  rewrite scan_match_kept by (now apply extracted_not_commented).
  destruct (reports_classify unit (source_of unit) (fst m) (snd m)
              (stmt_of (source_of unit) m)) as (H1 & H2 & _ & H4).
  simpl in H1, H2, H4. rewrite H1, H2, H4.
  rewrite search_HAS_CODEPAGE, search_LEGACY_CP, orb_true_iff,
    search_HEX_LITERAL, search_LIKELY_XVAR.
  tauto.
Qed.

Lemma checks_are_exact_witness :
  (reports (scan_match (unit_of body_hex) body_hex (0, 29))
     "TranslateObsoleteCodepage" "warning"
   <-> contains_phrase "CODE" ["PAGE"%string] (stmt_of body_hex (0, 29)))
  /\ (reports (scan_match (unit_of body_hex) body_hex (0, 29))
        "TranslateLegacyCp1Cp2" "warning"
      <-> contains_phrase "CODE" ["PAGE"%string; "CP1"%string]
            (stmt_of body_hex (0, 29))
          \/ contains_phrase "CODE" ["PAGE"%string; "CP2"%string]
               (stmt_of body_hex (0, 29)))
  /\ (reports (scan_match (unit_of body_hex) body_hex (0, 29))
        "TranslateNonCharacterRisk" "info"
      <-> contains_glued_hex_literal (stmt_of body_hex (0, 29))
          \/ contains_xvar (stmt_of body_hex (0, 29))).
Proof.
  apply (checks_are_exact (unit_of body_hex) (0, 29)). vm_compute. auto.
Defined.

Lemma classify_nonempty : forall unit src a b stmt,
    classify unit src a b stmt <> [] <->
    search HAS_CODEPAGE stmt = true \/ search HEX_LITERAL stmt = true
    \/ search LIKELY_XVAR stmt = true.
Proof.
  intros unit src a b stmt.
  assert (E : classify unit src a b stmt <> []
              <-> kinds (classify unit src a b stmt) <> [])
    by (unfold kinds; destruct (classify unit src a b stmt);
        simpl; split; intro H; congruence).
  rewrite E, kinds_classify.
  pose proof (search_LEGACY_CP_HAS_CODEPAGE stmt) as HL.
  destruct (search HAS_CODEPAGE stmt), (search LEGACY_CP stmt),
    (search FROM_CP stmt), (search TO_CP stmt), (search HEX_LITERAL stmt),
    (search LIKELY_XVAR stmt); simpl; split; intro H;
    try discriminate; auto; try (specialize (HL eq_refl); discriminate);
    try (exfalso; apply H; reflexivity);
    destruct H as [H|[H|H]]; discriminate.
Qed.

Lemma has_findings_iff : forall unit,
    has_findings (scan_unit unit) = true <->
    exists m,
      In m (statements (source_of unit))
      /\ (contains_phrase "CODE" ["PAGE"%string] (stmt_of (source_of unit) m)
          \/ contains_glued_hex_literal (stmt_of (source_of unit) m)
          \/ contains_xvar (stmt_of (source_of unit) m)).
Proof.
  intro unit. unfold has_findings. rewrite findings_classify.
  setoid_rewrite <- search_HAS_CODEPAGE.
  setoid_rewrite <- search_HEX_LITERAL.
  setoid_rewrite <- search_LIKELY_XVAR.
  induction (statements (source_of unit)) as [|m l IH]; simpl.
  - split; [discriminate|]. intros (m & [] & _).
  - destruct (classify unit (source_of unit) (fst m) (snd m)
                (stmt_of (source_of unit) m)) as [|f fs] eqn:E; simpl.
    + rewrite IH. split.
      * intros (m' & Hm' & H). exists m'; auto.
      * intros (m' & [<-|Hm'] & H); [|eauto].
        apply classify_nonempty
          with (unit := unit) (src := source_of unit) (a := fst m)
               (b := snd m) in H.
        congruence.
    + split; [intros _|reflexivity]. exists m. split; [auto|].
      apply (classify_nonempty unit (source_of unit) (fst m) (snd m)).
      rewrite E. discriminate.
Qed.

(** X18. A scan is in the answer of the endpoint exactly when it is the scan
    of a unit of the request that has a statement containing the CODE PAGE
    phrase, a hex literal glued to a following word character, or an
    identifier with one of the three prefixes; a unit with no such statement,
    in particular one without a body, is left out. *)
Theorem scan_rule_reports : forall units res,
    In res (scan_rule units) <->
    exists u,
      In u units /\ res = scan_unit u
      /\ exists m,
          In m (statements (source_of u))
          /\ (contains_phrase "CODE" ["PAGE"%string]
                (stmt_of (source_of u) m)
              \/ contains_glued_hex_literal (stmt_of (source_of u) m)
              \/ contains_xvar (stmt_of (source_of u) m)).
Proof.
  intros units res. rewrite scan_rule_filter, filter_In, in_map_iff. split.
  - intros ((u & <- & Hu) & H). exists u. repeat split; auto.
    now apply has_findings_iff.
  - intros (u & Hu & -> & H). split; [exists u; auto|].
    now apply has_findings_iff.
Qed.

Lemma map_flat_map : forall (A B C : Type) (g : B -> C) (f : A -> list B) l,
    map g (flat_map f l) = flat_map (fun a => map g (f a)) l.
Proof.
  intros A B C g f l. induction l as [|a l IH]; simpl; [reflexivity|].
  now rewrite map_app, IH.
Qed.

(** X19. What the findings say apart from the identity of the unit (issue
    type, severity, line, message, suggestion and snippet, in order) depends
    on the body of the unit alone: two units with the same body get the same
    findings up to the copied fields. *)
Theorem findings_depend_on_body : forall u1 u2,
    Unit.code u1 = Unit.code u2 ->
    map content (rule118_findings (scan_unit u1))
    = map content (rule118_findings (scan_unit u2)).
Proof.
  intros u1 u2 H. unfold scan_unit; cbn [rule118_findings].
  assert (Hs : source_of u1 = source_of u2)
    by (unfold source_of; now rewrite H).
  rewrite Hs, !map_flat_map. apply flat_map_same. intros [a b] _.
  unfold scan_match.
  destruct (is_entirely_commented (group0 (source_of u2) (a, b)));
    [reflexivity|].
  unfold classify, when. rewrite !map_app.
  repeat match goal with
         | |- context [if ?c then _ else _] => destruct c
         end; reflexivity.
Qed.

Lemma findings_depend_on_body_witness :
  map content (rule118_findings (scan_unit (unit_of body_cp1)))
  = map content
      (rule118_findings
         (scan_unit (Unit.mk "A" "B" "C" None None None (Some body_cp1)))).
Proof.
  apply (findings_depend_on_body (unit_of body_cp1)
           (Unit.mk "A" "B" "C" None None None (Some body_cp1))).
  reflexivity.
Defined.

(** ** More of the code: the full-line comment pass, line by line *)

Lemma cut_stars_comment_line : forall body,
    ~ In Char.newline body ->
    cut_stars Comment body = []
    /\ forall r, cut_stars Comment (body ++ Char.newline :: r)
                 = Char.newline :: cut_stars (Code true) r.
Proof.
  induction body as [|c body IH]; intro H.
  - split; [reflexivity|]. intro r. cbn [app cut_stars].
    now rewrite Ascii.eqb_refl.
  - assert (Hc : Ascii.eqb c Char.newline = false)
      by (apply Ascii.eqb_neq; intros ->; apply H; left; reflexivity).
    destruct IH as [IH1 IH2]; [intro; apply H; right; assumption|].
    split; [|intro r]; cbn [app cut_stars]; rewrite Hc; auto.
Qed.

Lemma cut_stars_blank : forall ws rest,
    forallb Char.is_space ws = true ->
    cut_stars Blank (ws ++ Char.star :: rest) = cut_stars Comment rest.
Proof.
  induction ws as [|c ws IH]; intros rest H; cbn [app cut_stars].
  - now rewrite Ascii.eqb_refl.
  - simpl in H. apply andb_prop in H as [Hc H].
    rewrite (space_not_star _ Hc). now apply IH.
Qed.

Lemma lstrip_blank : forall ws s,
    forallb Char.is_space ws = true -> lstrip (ws ++ s) = lstrip s.
Proof.
  induction ws as [|c ws IH]; intros s H; [reflexivity|].
  simpl in H. apply andb_prop in H as [Hc H].
  cbn [app lstrip]. rewrite Hc. now apply IH.
Qed.

Lemma cut_stars_leading_comment : forall ws rest,
    forallb Char.is_space ws = true ->
    cut_stars (Code true) (ws ++ Char.star :: rest) = cut_stars Comment rest.
Proof.
  intros ws rest H.
  assert (Hl : starts_with_star (lstrip (ws ++ Char.star :: rest)) = true)
    by (rewrite lstrip_blank by assumption; reflexivity).
  destruct ws as [|c ws]; cbn [app] in *; cbn [cut_stars]; rewrite Hl.
  - now rewrite Ascii.eqb_refl.
  - simpl in H. apply andb_prop in H as [Hc H].
    cbn [andb]. rewrite (space_not_star _ Hc). now apply cut_stars_blank.
Qed.

Lemma cut_stars_code_line : forall line,
    ~ In Char.newline line ->
    cut_stars (Code false) line = line
    /\ forall r, cut_stars (Code false) (line ++ Char.newline :: r)
                 = line ++ Char.newline :: cut_stars (Code true) r.
Proof.
  induction line as [|c line IH]; intro H.
  - split; [reflexivity|]. intro r. cbn [app cut_stars andb].
    now rewrite Ascii.eqb_refl.
  - assert (Hc : Ascii.eqb c Char.newline = false)
      by (apply Ascii.eqb_neq; intros ->; apply H; left; reflexivity).
    destruct IH as [IH1 IH2]; [intro; apply H; right; assumption|].
    split; [|intro r]; cbn [app cut_stars andb]; rewrite Hc;
      [now rewrite IH1|now rewrite IH2].
Qed.

(** X20. The full-line comment pass, line by line.  When the first character
    of the text that is not whitespace is a star, the pass deletes that
    whitespace, line breaks included, and the star's line up to its newline,
    and goes on with the rest as with a new text.  Otherwise it keeps the
    first line and its newline and goes on with the rest. *)
Theorem strip_full_line_star_comments_by_line :
  (forall ws body,
      forallb Char.is_space ws = true -> ~ In Char.newline body ->
      strip_full_line_star_comments (ws ++ Char.star :: body) = []
      /\ forall r,
          strip_full_line_star_comments
            (ws ++ Char.star :: body ++ Char.newline :: r)
          = Char.newline :: strip_full_line_star_comments r)
  /\ (forall line,
         ~ In Char.newline line ->
         (starts_with_star (lstrip line) = false ->
          strip_full_line_star_comments line = line)
         /\ forall r,
             starts_with_star (lstrip (line ++ Char.newline :: r)) = false ->
             strip_full_line_star_comments (line ++ Char.newline :: r)
             = line ++ Char.newline :: strip_full_line_star_comments r).
Proof.
  split.
  - intros ws body Hws Hb.
    destruct (cut_stars_comment_line body Hb) as [H1 H2].
    split; [|intro r]; rewrite !star_pass_cut, cut_stars_leading_comment
      by assumption; auto.
  - intros line Hl.
    destruct (cut_stars_code_line line Hl) as [H1 H2].
    assert (Hstep : forall s,
               starts_with_star (lstrip s) = false ->
               cut_stars (Code true) s
               = match s with
                 | [] => []
                 | c :: s' =>
                     c :: cut_stars (Code (Ascii.eqb c Char.newline)) s'
                 end)
      by (intros [|c s'] Hs; cbn [cut_stars]; [|rewrite Hs]; reflexivity).
    split; [intro Hs|intros r Hs]; rewrite !star_pass_cut, Hstep
      by assumption.
    + destruct line as [|c line]; [reflexivity|].
      assert (Hc : Ascii.eqb c Char.newline = false)
        by (apply Ascii.eqb_neq; intros ->; apply Hl; left; reflexivity).
      rewrite Hc. f_equal.
      apply cut_stars_code_line. intro; apply Hl; right; assumption.
    + destruct line as [|c line]; cbn [app].
      * now rewrite Ascii.eqb_refl.
      * assert (Hc : Ascii.eqb c Char.newline = false)
          by (apply Ascii.eqb_neq; intros ->; apply Hl; left; reflexivity).
        rewrite Hc. f_equal.
        apply cut_stars_code_line. intro; apply Hl; right; assumption.
Qed.

Lemma strip_full_line_star_comments_by_line_witness :
  strip_full_line_star_comments
    ([Char.newline; " "%char] ++ Char.star :: txt " c" ++ Char.newline
       :: txt "TO b.")
  = Char.newline :: strip_full_line_star_comments (txt "TO b.")
  /\ strip_full_line_star_comments
       (txt "TRANSLATE a" ++ Char.newline :: txt "* c")
     = txt "TRANSLATE a" ++ Char.newline
         :: strip_full_line_star_comments (txt "* c").
Proof.
  destruct strip_full_line_star_comments_by_line as [H1 H2]. split.
  - apply (proj2 (H1 [Char.newline; " "%char] (txt " c") eq_refl
                    ltac:(vm_compute; intuition discriminate))).
  - apply (proj2 (H2 (txt "TRANSLATE a")
                    ltac:(vm_compute; intuition discriminate))).
    reflexivity.
Defined.
